(** * dap-cli: framing and response correlation of [main.go]

    A shallow embedding of the Debug Adapter Protocol client of
    [src/main.go]: the frame decoder and dispatcher [listen], the frame
    encoder [sendMessage], the request constructors [NewRequest] and
    [InitializeRequest] and the handshake [initialize].

    A Go [string] is modelled by [string] and a byte slice by
    [list ascii]; [bytes] and [str] are the conversions [[]byte(s)] and
    [string(b)].  [int] and [int64] are 64-bit integers, modelled by [Z]
    with the wrap-around written out where the code can overflow. *)

From Stdlib Require Import ZArith Ascii String List Lia Bool.
From stdpp Require Import base option list gmap strings.

Local Open Scope string_scope.
Local Open Scope list_scope.
Local Open Scope Z_scope.

(** ** Bytes *)

Definition code (a : ascii) : Z := Z.of_N (N_of_ascii a).
Definition byte (z : Z) : ascii := ascii_of_N (Z.to_N z).

Definition LF : ascii := byte 10.
Definition CR : ascii := byte 13.
Definition CRLF : string := String CR (String LF "").
Definition colon : ascii := ":"%char.

Definition bytes (s : string) : list ascii := list_ascii_of_string s.
Definition str (l : list ascii) : string := string_of_list_ascii l.

Definition len {A} (l : list A) : Z := Z.of_nat (length l).

(** ** [bytes.TrimSpace] and [strings.TrimSpace]

    Both remove the leading and the trailing white space of their argument,
    as [unicode.IsSpace] defines it.  On UTF-8 text the white-space runes
    are the ASCII ones (tab, line feed, vertical tab, form feed, carriage
    return, space) and the encodings of U+0085, U+00A0, U+1680,
    U+2000..U+200A, U+2028, U+2029, U+202F, U+205F and U+3000.  A byte that
    starts no such encoding (in particular an invalid one, which decodes to
    U+FFFD) stops the trimming. *)

Definition isSpace1 (a : Z) : bool :=
  ((9 <=? a) && (a <=? 13)) || (a =? 32).

Definition isSpace2 (a b : Z) : bool :=
  (a =? 194) && ((b =? 133) || (b =? 160)).

Definition isSpace3 (a b c : Z) : bool :=
  ((a =? 225) && (b =? 154) && (c =? 128))
  || ((a =? 226) && (b =? 128)
      && (((128 <=? c) && (c <=? 138)) || (c =? 168) || (c =? 169) || (c =? 175)))
  || ((a =? 226) && (b =? 129) && (c =? 159))
  || ((a =? 227) && (b =? 128) && (c =? 128)).

(** [TrimLeft]: drop white-space runes from the front. *)
Fixpoint TrimLeft (l : list ascii) : list ascii :=
  match l with
  | a :: r1 =>
      if isSpace1 (code a) then TrimLeft r1
      else match r1 with
           | b :: r2 =>
               if isSpace2 (code a) (code b) then TrimLeft r2
               else match r2 with
                    | c :: r3 =>
                        if isSpace3 (code a) (code b) (code c)
                        then TrimLeft r3 else l
                    | [] => l
                    end
           | [] => l
           end
  | [] => l
  end.

(** [TrimRightRev]: the same from the back, on the reversed byte sequence
    (the last byte of an encoding comes first). *)
Fixpoint TrimRightRev (l : list ascii) : list ascii :=
  match l with
  | c :: r1 =>
      if isSpace1 (code c) then TrimRightRev r1
      else match r1 with
           | b :: r2 =>
               if isSpace2 (code b) (code c) then TrimRightRev r2
               else match r2 with
                    | a :: r3 =>
                        if isSpace3 (code a) (code b) (code c)
                        then TrimRightRev r3 else l
                    | [] => l
                    end
           | [] => l
           end
  | [] => l
  end.

Definition TrimRight (l : list ascii) : list ascii :=
  rev (TrimRightRev (rev l)).

Definition bytes_TrimSpace (l : list ascii) : list ascii :=
  TrimRight (TrimLeft l).

Definition strings_TrimSpace (s : string) : string :=
  str (bytes_TrimSpace (bytes s)).

(** ** [strings.Split(s, ":")]

    The fields of [s] between the occurrences of the separator byte: one
    more field than there are separators, so never an empty list. *)

Fixpoint splitOn (sep : ascii) (l : list ascii) : list (list ascii) :=
  match l with
  | [] => [[]]
  | a :: r =>
      if Ascii.eqb a sep then [] :: splitOn sep r
      else match splitOn sep r with
           | f :: fs => (a :: f) :: fs
           | [] => [[a]]
           end
  end.

Definition strings_Split (s : string) (sep : ascii) : list string :=
  map str (splitOn sep (bytes s)).

(** ** [strconv.Atoi]

    An optional sign followed by one or more decimal digits.  The digits
    are read left to right: a byte that is no digit is a syntax error, a
    value that leaves the unsigned 64-bit range is a range error at the
    digit where it does, and a signed value outside [int] is a range
    error at the end. *)

Inductive NumError := ErrSyntax | ErrRange.

Definition isDigit (a : ascii) : bool := (48 <=? code a) && (code a <=? 57).

Fixpoint parseDigits (acc : Z) (l : list ascii) : NumError + Z :=
  match l with
  | [] => inr acc
  | a :: r =>
      if isDigit a then
        let acc' := acc * 10 + (code a - 48) in
        if 2 ^ 64 <=? acc' then inl ErrRange else parseDigits acc' r
      else inl ErrSyntax
  end.

Definition parseSigned (neg : bool) (l : list ascii) : NumError + Z :=
  match l with
  | [] => inl ErrSyntax
  | _ =>
      match parseDigits 0 l with
      | inl e => inl e
      | inr u =>
          if neg then (if 2 ^ 63 <? u then inl ErrRange else inr (- u))
          else (if 2 ^ 63 <=? u then inl ErrRange else inr u)
      end
  end.

Definition strconv_Atoi (s : string) : NumError + Z :=
  match bytes s with
  | [] => inl ErrSyntax
  | a :: r =>
      if Ascii.eqb a "+" then parseSigned false r
      else if Ascii.eqb a "-" then parseSigned true r
      else parseSigned false (a :: r)
  end.

(** ** The verb [%d] of [fmt] on a non-negative [int] *)

Fixpoint digitsOf (fuel : nat) (n : Z) (acc : list ascii) : list ascii :=
  match fuel with
  | O => acc
  | S fuel' =>
      let acc' := byte (48 + n mod 10) :: acc in
      if n <? 10 then acc' else digitsOf fuel' (n / 10) acc'
  end.

Definition fmt_d (n : Z) : list ascii :=
  digitsOf (S (Z.to_nat (Z.log2 n))) n [].

(** ** The connection as [bufio.Reader] sees it

    The bytes the peer sends, and the error [Read] reports once they are
    used up: [EOF] when the peer closed the stream, another error when the
    transport failed.  Every stream ends: a connection that stays open
    without data is not modelled. *)

Inductive io_error := EOF | ErrUnexpectedEOF | ErrNet.

Record Reader := { pending : list ascii; final : io_error }.

Definition advance (r : Reader) (rest : list ascii) : Reader :=
  {| pending := rest; final := final r |}.

Fixpoint untilDelim (delim : ascii) (l : list ascii)
  : option (list ascii * list ascii) :=
  match l with
  | [] => None
  | a :: r =>
      if Ascii.eqb a delim then Some ([a], r)
      else match untilDelim delim r with
           | Some (line, rest) => Some (a :: line, rest)
           | None => None
           end
  end.

(** [ReadBytes] of [bufio.Reader]: the bytes up to and including the first
    delimiter; without a delimiter, all the bytes left and the error. *)
Definition ReadBytes (r : Reader) (delim : ascii)
  : list ascii * option io_error * Reader :=
  match untilDelim delim (pending r) with
  | Some (line, rest) => (line, None, advance r rest)
  | None => (pending r, Some (final r), advance r [])
  end.

(** [io.ReadFull] into a buffer of [n] bytes: [EOF] only when no byte was
    read, [ErrUnexpectedEOF] when the stream ended after some. *)
Definition ReadFull (r : Reader) (n : nat) : io_error + (list ascii * Reader) :=
  if (n =? 0)%nat then inr ([], r)
  else if (n <=? length (pending r))%nat
       then inr (take n (pending r), advance r (drop n (pending r)))
  else match pending r with
       | [] => inl (final r)
       | _ :: _ =>
           inl (match final r with EOF => ErrUnexpectedEOF | e => e end)
       end.

(** [make([]byte, n)] panics when [n] is negative or beyond the largest
    allocation of a 64-bit runtime.  Memory is not modelled: an allocation
    within that bound is taken to succeed. *)
Definition maxAlloc : Z := 2 ^ 48.

Definition makeslice (n : Z) : option nat :=
  if (n <? 0) || (maxAlloc <? n) then None else Some (Z.to_nat n).

(** ** Messages *)

Record ProtocolMessage := { Seq : Z; Type_ : string }.

Record InitializeRequestArgs := {
  ClientID : string;
  ClientName : string;
  AdapterID : string;
  Locale : string
}.

(** [Arguments] is an [interface{}]: [None] is the nil interface, and the
    only dynamic type the program stores in it is [InitializeRequestArgs]. *)
Record Request := {
  reqMessage : ProtocolMessage;
  reqCommand : string;
  Arguments : option InitializeRequestArgs
}.

(** [Body] is a [json.RawMessage]: [None] is the nil slice. *)
Record Response := {
  respMessage : ProtocolMessage;
  RequestSeq : Z;
  Success : bool;
  Command : string;
  Message : string;
  Body : option (list ascii)
}.

Record Capabilities := {
  SupportsConfigurationDoneRequest : bool;
  SupportsFunctionBreakpoints : bool;
  SupportsConditionalBreakpoints : bool;
  SupportsHitConditionalBreakpoints : bool;
  SupportsEvaluateForHovers : bool;
  SupportsStepBack : bool;
  SupportsSetVariable : bool;
  SupportsRestartFrame : bool;
  SupportsGotoTargetsRequest : bool;
  SupportsStepInTargetsRequest : bool;
  SupportsCompletionsRequest : bool;
  CompletionTriggerCharacters : option (list string);
  SupportsModulesRequest : bool
}.

(** ** The interface to [encoding/json]

    [json.Marshal(v)] and [json.Unmarshal(data, &v)] on a zero [v], for the
    types the program uses them at.  The framing and dispatch code only
    looks at whether they fail. *)

Inductive json_error := SyntaxError | UnmarshalTypeError | MarshalerError.

Class Marshal (A : Type) := json_Marshal : A -> json_error + list ascii.
Class Unmarshal (A : Type) := json_Unmarshal : list ascii -> json_error + A.

(** ** The process

    [seqCounter] and [responseChans] are the two package variables.  A
    channel is named by the number [make] gave it; what [listen] does to
    channels is recorded in [chanOps], what the program writes to the
    connection in [wire], and what [log.Printf] and [log.Println] print in
    [logged].  [log.Fatalf] and run-time panics end the process: they are
    the [exit] of the goroutine that ran into them.

    The channels are unbuffered.  A send of [listen] is recorded as done: the
    goroutine that registers a channel is the one that then receives from
    it (lines 151-153).  The two goroutines touch [responseChans] without a
    lock; the model takes their statements one at a time. *)

Definition chan := nat.

Inductive chanOp :=
| ChSend (ch : chan) (v : Response)
| ChClose (ch : chan).

Inductive logEntry :=
| LogNoContentLength                 (* warning: no Content-Length header *)
| LogSendFailed (e : json_error).    (* failed to send message: %s *)

Inductive fatal :=
| FatalReadLine (e : io_error)       (* failed to read line: %s *)
| FatalContentLength (e : NumError)  (* bad Content-Length: %s *)
| FatalReadBody (e : io_error)       (* failed to read body: %s *)
| FatalUnmarshal                     (* failed to unmarshal response body *)
| FatalInitialization (v : Response) (* resp printed; initialization failed *)
| FatalCapabilities (e : json_error). (* failed to read capabilities: %s *)

Inductive panic :=
| PanicIndex (i n : Z)               (* index out of range [i] with length n *)
| PanicMakeslice.                    (* makeslice: len out of range *)

Inductive exit :=
| Return
| Fatal (f : fatal)
| Panic (p : panic).

Record Process := {
  seqCounter : Z;
  responseChans : gmap Z chan;
  chans : nat;
  wire : list ascii;
  logged : list logEntry;
  chanOps : list chanOp
}.

Definition start : Process :=
  {| seqCounter := 0; responseChans := ∅; chans := 0%nat;
     wire := []; logged := []; chanOps := [] |}.

Definition log (e : logEntry) (p : Process) : Process :=
  {| seqCounter := seqCounter p; responseChans := responseChans p;
     chans := chans p; wire := wire p;
     logged := logged p ++ [e]; chanOps := chanOps p |}.

Definition write (b : list ascii) (p : Process) : Process :=
  {| seqCounter := seqCounter p; responseChans := responseChans p;
     chans := chans p; wire := wire p ++ b;
     logged := logged p; chanOps := chanOps p |}.

(** ** [listen] *)

(** Lines 100-101: the name and the value a header line is stored under. *)
Definition headerFields (line : string) : panic + string * string :=
  let parts := strings_Split line colon in
  match parts !! 0%nat with
  | None => inl (PanicIndex 0 (len parts))
  | Some name =>
      match parts !! 1%nat with
      | None => inl (PanicIndex 1 (len parts))
      | Some value => inr (strings_TrimSpace name, strings_TrimSpace value)
      end
  end.

(** Lines 87-102: the inner loop, one header line per round.  Every round
    that goes on has consumed a line, so [fuel] beyond the number of bytes
    left is never used up. *)
Fixpoint readHeaders (fuel : nat) (headers : gmap string string) (r : Reader)
  : option (exit + gmap string string * Reader) :=
  match fuel with
  | O => None
  | S fuel' =>
      let '(data, err, r') := ReadBytes r LF in
      match err with
      | Some EOF => Some (inl Return)
      | Some e => Some (inl (Fatal (FatalReadLine e)))
      | None =>
          let line := str (bytes_TrimSpace data) in
          if (String.length line =? 0)%nat then Some (inr (headers, r'))
          else match headerFields line with
               | inl p => Some (inl (Panic p))
               | inr (name, value) =>
                   readHeaders fuel' (<[name := value]> headers) r'
               end
      end
  end.

(** Lines 127-131: hand the response to the channel registered under its
    [request_seq], if there is one. *)
Definition dispatch (resp : Response) (p : Process) : Process :=
  match responseChans p !! RequestSeq resp with
  | Some ch =>
      {| seqCounter := seqCounter p;
         responseChans := delete (RequestSeq resp) (responseChans p);
         chans := chans p; wire := wire p; logged := logged p;
         chanOps := chanOps p ++ [ChSend ch resp; ChClose ch] |}
  | None => p
  end.

(** The header block at the front of [r]. *)
Definition readHeaderBlock (r : Reader)
  : option (exit + gmap string string * Reader) :=
  readHeaders (S (length (pending r))) ∅ r.

(** What one round of the outer loop reads. *)
Inductive frameResult :=
| NoLength (r : Reader)                  (* lines 104-107: warning, next round *)
| Stopped (e : exit)                     (* the goroutine ends *)
| Decoded (resp : Response) (r : Reader). (* line 123: a response decoded *)

Section Listen.
Context {U : Unmarshal Response}.

(** Lines 104-125: from [headers["Content-Length"]] to the decoded body. *)
Definition readBody (value : string) (r1 : Reader) : frameResult :=
  if String.eqb value "" then NoLength r1
  else
    match strconv_Atoi value with
    | inl e => Stopped (Fatal (FatalContentLength e))
    | inr contentLength =>
        match makeslice contentLength with
        | None => Stopped (Panic PanicMakeslice)
        | Some n =>
            match ReadFull r1 n with
            | inl EOF => Stopped Return
            | inl e => Stopped (Fatal (FatalReadBody e))
            | inr (body, r2) =>
                match json_Unmarshal body with
                | inl _ => Stopped (Fatal FatalUnmarshal)
                | inr resp => Decoded resp r2
                end
            end
        end
    end.

(** Lines 86-125: the frame at the front of [r]. *)
Definition readFrame (r : Reader) : option frameResult :=
  match readHeaderBlock r with
  | None => None
  | Some (inl e) => Some (Stopped e)
  | Some (inr (headers, r1)) =>
      Some (readBody (default "" (headers !! "Content-Length")) r1)
  end.

(** Lines 85-133: the outer loop, one frame per round. *)
Fixpoint listenLoop (fuel : nat) (p : Process) (r : Reader)
  : option (exit * Process) :=
  match fuel with
  | O => None
  | S fuel' =>
      match readFrame r with
      | None => None
      | Some (Stopped e) => Some (e, p)
      | Some (NoLength r1) => listenLoop fuel' (log LogNoContentLength p) r1
      | Some (Decoded resp r2) => listenLoop fuel' (dispatch resp p) r2
      end
  end.

Definition listen (p : Process) (r : Reader) : option (exit * Process) :=
  listenLoop (S (length (pending r))) p r.
End Listen.

(** ** Requests *)

(** [atomic.AddInt64] wraps around in two's complement. *)
Definition wrap64 (z : Z) : Z := (z + 2 ^ 63) mod 2 ^ 64 - 2 ^ 63.

Definition NewRequest (p : Process) : ProtocolMessage * Process :=
  let n := wrap64 (seqCounter p + 1) in
  ({| Seq := n; Type_ := "request" |},
   {| seqCounter := n; responseChans := responseChans p; chans := chans p;
      wire := wire p; logged := logged p; chanOps := chanOps p |}).

Definition InitializeRequest (args : InitializeRequestArgs) (p : Process)
  : Request * Process :=
  let '(m, p') := NewRequest p in
  ({| reqMessage := m; reqCommand := "initialize"; Arguments := Some args |}, p').

(** ** [sendMessage]

    Lines 136-145.  The results of the three writes are not looked at by
    the code; the bytes are taken to reach the connection. *)
Definition sendMessage {A} {M : Marshal A} (msg : A) (p : Process) : Process :=
  match json_Marshal msg with
  | inl err => log (LogSendFailed err) p
  | inr b =>
      write b
        (write (bytes CRLF)
           (write (bytes "Content-Length: " ++ fmt_d (len b) ++ bytes CRLF) p))
  end.

(** ** [initialize] *)

(** [responseChans[seq] = make(chan Response)] *)
Definition register (seq : Z) (p : Process) : chan * Process :=
  (chans p,
   {| seqCounter := seqCounter p;
      responseChans := <[seq := chans p]> (responseChans p);
      chans := S (chans p); wire := wire p; logged := logged p;
      chanOps := chanOps p |}).

Definition zeroResponse : Response :=
  {| respMessage := {| Seq := 0; Type_ := "" |}; RequestSeq := 0;
     Success := false; Command := ""; Message := ""; Body := None |}.

(** [<-ch] against what the reader goroutine does to channels, in order:
    the first send on [ch] is received; a receive from a closed channel
    yields the zero value; without either the receive never returns. *)
Fixpoint recv (ch : chan) (ops : list chanOp) : option Response :=
  match ops with
  | [] => None
  | ChSend c v :: ops' => if decide (c = ch) then Some v else recv ch ops'
  | ChClose c :: ops' => if decide (c = ch) then Some zeroResponse else recv ch ops'
  end.

(** How a call of [initialize] ends. *)
Inductive handshake :=
| Capable (caps : Capabilities)      (* line 162: the capabilities are returned *)
| Failed (f : fatal)                 (* lines 156, 160: log.Fatal in initialize *)
| Killed (e : exit)                  (* the reader goroutine ended the process *)
| Stuck.                             (* line 153 never returns a value *)

Section Initialize.
Context {M : Marshal Request} {U : Unmarshal Response} {UC : Unmarshal Capabilities}.

(** Lines 148-152: build the request, register its channel, send it. *)
Definition initializeSend (p : Process) : Request * chan * Process :=
  let '(req, p1) :=
    InitializeRequest
      {| ClientID := ""; ClientName := ""; AdapterID := "dap-cli"; Locale := "" |}
      p in
  let '(ch, p2) := register (Seq (reqMessage req)) p1 in
  (req, ch, sendMessage req p2).

(** Lines 154-162: what is done with the response received. *)
Definition initializeReceived (resp : Response) : handshake :=
  if negb (Success resp) then Failed (FatalInitialization resp)
  else match json_Unmarshal (default [] (Body resp)) with
       | inl e => Failed (FatalCapabilities e)
       | inr caps => Capable caps
       end.

(** [main] starts [listen] on the connection and calls [initialize]; the
    peer's bytes [r] are read by [listen] after the request is written.
    Line 153 receives what [listen] sends on the registered channel, and
    [initialize] goes on with it while [listen] reads on.  When [listen]
    never sends on the channel, the process ends if [listen] ended it, and
    the receive blocks for good if [listen] returned: no goroutine is left
    to send (a runtime that notices the deadlock aborts the process; the
    call returns nothing either way). *)
Definition initialize (p : Process) (r : Reader) : option handshake :=
  let '(_, ch, p1) := initializeSend p in
  match listen p1 r with
  | None => None
  | Some (e, p2) =>
      match recv ch (drop (length (chanOps p1)) (chanOps p2)) with
      | Some resp => Some (initializeReceived resp)
      | None => Some (match e with Return => Stuck | _ => Killed e end)
      end
  end.
End Initialize.

(** ** A reference [encoding/json]

    The instances of [Marshal] and [Unmarshal] the scenarios are run with.
    They follow the package on the types of this program: the JSON grammar,
    the unquoting of strings (escapes, surrogate pairs, U+FFFD for invalid
    UTF-8), keys matched to field names exactly or else without regard to
    case, [null] leaving a scalar field alone, and a value of the wrong
    kind being an error.  Not modelled: the nesting limit of the decoder,
    and the reuse of a slice's old elements when a key is repeated. *)

Module json.

Definition isc (a b : ascii) : bool := Ascii.eqb a b.
Definition dq : ascii := byte 34.
Definition bs : ascii := byte 92.

(** *** UTF-8 *)

Definition cont (b : Z) : bool := (128 <=? b) && (b <=? 191).

Definition lead3 (a b : Z) : bool :=
  ((a =? 224) && (160 <=? b) && (b <=? 191))
  || ((225 <=? a) && (a <=? 236) && cont b)
  || ((a =? 237) && (128 <=? b) && (b <=? 159))
  || ((238 <=? a) && (a <=? 239) && cont b).

Definition lead4 (a b : Z) : bool :=
  ((a =? 240) && (144 <=? b) && (b <=? 191))
  || ((241 <=? a) && (a <=? 243) && cont b)
  || ((a =? 244) && (128 <=? b) && (b <=? 143)).

Definition RuneError : Z := 65533.

(** [utf8.DecodeRune]: the rune at the front and its width; an invalid
    encoding is [RuneError] of width 1. *)
Definition DecodeRune (l : list ascii) : Z * nat :=
  match map code l with
  | [] => (RuneError, 0%nat)
  | a :: r =>
      if a <? 128 then (a, 1%nat)
      else match r with
           | b :: r2 =>
               if (194 <=? a) && (a <=? 223) && cont b
               then ((a - 192) * 64 + (b - 128), 2%nat)
               else match r2 with
                    | c :: r3 =>
                        if lead3 a b && cont c
                        then (((a - 224) * 64 + (b - 128)) * 64 + (c - 128), 3%nat)
                        else match r3 with
                             | d :: _ =>
                                 if lead4 a b && cont c && cont d
                                 then ((((a - 240) * 64 + (b - 128)) * 64
                                        + (c - 128)) * 64 + (d - 128), 4%nat)
                                 else (RuneError, 1%nat)
                             | [] => (RuneError, 1%nat)
                             end
                    | [] => (RuneError, 1%nat)
                    end
           | [] => (RuneError, 1%nat)
           end
  end.

Definition IsSurrogate (r : Z) : bool := (55296 <=? r) && (r <? 57344).

(** [utf8.EncodeRune]; a surrogate or a value beyond U+10FFFF is written
    as U+FFFD. *)
Definition EncodeRune (r : Z) : list ascii :=
  let r := if (r <? 0) || (1114111 <? r) || IsSurrogate r then RuneError else r in
  if r <? 128 then [byte r]
  else if r <? 2048 then [byte (192 + r / 64); byte (128 + r mod 64)]
  else if r <? 65536 then
    [byte (224 + r / 4096); byte (128 + (r / 64) mod 64); byte (128 + r mod 64)]
  else [byte (240 + r / 262144); byte (128 + (r / 4096) mod 64);
        byte (128 + (r / 64) mod 64); byte (128 + r mod 64)].

(** [utf16.DecodeRune] on two escapes, the second possibly missing. *)
Definition DecodeSurrogates (r1 : Z) (r2 : option Z) : option Z :=
  match r2 with
  | Some r2 =>
      if (55296 <=? r1) && (r1 <? 56320) && (56320 <=? r2) && (r2 <? 57344)
      then Some ((r1 - 55296) * 1024 + (r2 - 56320) + 65536)
      else None
  | None => None
  end.

(** *** Strings *)

Definition hexVal (a : ascii) : option Z :=
  let c := code a in
  if (48 <=? c) && (c <=? 57) then Some (c - 48)
  else if (97 <=? c) && (c <=? 102) then Some (c - 87)
  else if (65 <=? c) && (c <=? 70) then Some (c - 55)
  else None.

(** [getu4]: the value of a [\uXXXX] escape at the front. *)
Definition getu4 (l : list ascii) : option Z :=
  match l with
  | b :: u :: h1 :: h2 :: h3 :: h4 :: _ =>
      if isc b bs && isc u "u" then
        match hexVal h1, hexVal h2, hexVal h3, hexVal h4 with
        | Some x1, Some x2, Some x3, Some x4 =>
            Some (((x1 * 16 + x2) * 16 + x3) * 16 + x4)
        | _, _, _, _ => None
        end
      else None
  | _ => None
  end.

Definition simpleEscape (e : ascii) : option ascii :=
  if isc e dq || isc e bs || isc e "/" then Some e
  else if isc e "b" then Some (byte 8)
  else if isc e "f" then Some (byte 12)
  else if isc e "n" then Some (byte 10)
  else if isc e "r" then Some (byte 13)
  else if isc e "t" then Some (byte 9)
  else None.

Definition more (b : list ascii) (k : option (list ascii * list ascii))
  : option (list ascii * list ascii) :=
  match k with
  | Some (s, rest) => Some ((b ++ s)%list, rest)
  | None => None
  end.

(** The text of a string literal after its opening quote: the decoded
    bytes and what follows the closing quote. *)
Fixpoint unquote (fuel : nat) (l : list ascii)
  : option (list ascii * list ascii) :=
  match fuel with
  | O => None
  | S f =>
      match l with
      | [] => None
      | c :: r =>
          if isc c dq then Some ([], r)
          else if isc c bs then
            match r with
            | [] => None
            | e :: r' =>
                if isc e "u" then
                  match getu4 l with
                  | None => None
                  | Some rr =>
                      let l6 := drop 6 l in
                      if IsSurrogate rr then
                        match DecodeSurrogates rr (getu4 l6) with
                        | Some dec => more (EncodeRune dec) (unquote f (drop 6 l6))
                        | None => more (EncodeRune RuneError) (unquote f l6)
                        end
                      else more (EncodeRune rr) (unquote f l6)
                  end
                else match simpleEscape e with
                     | Some b => more [b] (unquote f r')
                     | None => None
                     end
            end
          else if code c <? 32 then None
          else if code c <? 128 then more [c] (unquote f r)
          else let '(rr, size) := DecodeRune l in
               more (EncodeRune rr) (unquote f (drop size l))
      end
  end.
(** *** Values *)

Local Unset Elimination Schemes.
Inductive value :=
| Null
| Bool (b : bool)
| Number (lit : list ascii)
| Str (s : string)
| Array (vs : list value)
| Object (ms : list (string * list ascii * value)).
Local Set Elimination Schemes.

Definition isWS (a : ascii) : bool :=
  isc a " " || isc a (byte 9) || isc a (byte 13) || isc a (byte 10).

Fixpoint skipWS (l : list ascii) : list ascii :=
  match l with
  | a :: r => if isWS a then skipWS r else l
  | [] => []
  end.

Fixpoint digitRun (l : list ascii) : list ascii * list ascii :=
  match l with
  | a :: r =>
      if isDigit a then let '(ds, rest) := digitRun r in (a :: ds, rest)
      else ([], l)
  | [] => ([], [])
  end.

Definition stripPrefix (pre l : list ascii) : option (list ascii) :=
  if decide (take (length pre) l = pre) then Some (drop (length pre) l) else None.

(** A number literal: sign, integer part without leading zero, fraction,
    exponent.  The literal and what follows it. *)
Definition parseNumber (l : list ascii) : option (list ascii * list ascii) :=
  let '(sign, l1) :=
    match l with
    | a :: r => if isc a "-" then ([a], r) else ([], l)
    | [] => ([], l)
    end in
  match l1 with
  | [] => None
  | a :: r =>
      if negb (isDigit a) then None
      else
        let '(int, l2) := if isc a "0" then ([a], r) else digitRun l1 in
        let frac :=
          match l2 with
          | d :: r2 =>
              if isc d "." then
                match digitRun r2 with
                | ([], _) => None
                | (ds, l3) => Some (d :: ds, l3)
                end
              else Some ([], l2)
          | [] => Some ([], l2)
          end in
        match frac with
        | None => None
        | Some (fr, l3) =>
            let exp :=
              match l3 with
              | e :: r3 =>
                  if isc e "e" || isc e "E" then
                    let '(sg, l4) :=
                      match r3 with
                      | g :: r4 => if isc g "+" || isc g "-" then ([g], r4) else ([], r3)
                      | [] => ([], r3)
                      end in
                    match digitRun l4 with
                    | ([], _) => None
                    | (ds, l5) => Some ((e :: sg ++ ds)%list, l5)
                    end
                  else Some ([], l3)
              | [] => Some ([], l3)
              end in
            match exp with
            | None => None
            | Some (ex, l5) => Some ((sign ++ int ++ fr ++ ex)%list, l5)
            end
        end
  end.

(** A value at the front of [l] (white space already skipped) and what
    follows it.  [fuel] of twice the length of [l] and one is never used
    up. *)
Fixpoint parseValue (fuel : nat) (l : list ascii) : option (value * list ascii) :=
  match fuel with
  | O => None
  | S f =>
      match l with
      | [] => None
      | c :: r =>
          if isc c "{" then
            match skipWS r with
            | c' :: r' =>
                if isc c' "}" then Some (Object [], r')
                else match parseMembers f (skipWS r) with
                     | Some (ms, rest) => Some (Object ms, rest)
                     | None => None
                     end
            | [] => None
            end
          else if isc c "[" then
            match skipWS r with
            | c' :: r' =>
                if isc c' "]" then Some (Array [], r')
                else match parseElements f (skipWS r) with
                     | Some (vs, rest) => Some (Array vs, rest)
                     | None => None
                     end
            | [] => None
            end
          else if isc c dq then
            match unquote (S (length r)) r with
            | Some (s, rest) => Some (Str (str s), rest)
            | None => None
            end
          else if isc c "t" then
            option_map (pair (Bool true)) (stripPrefix (bytes "true") l)
          else if isc c "f" then
            option_map (pair (Bool false)) (stripPrefix (bytes "false") l)
          else if isc c "n" then
            option_map (pair Null) (stripPrefix (bytes "null") l)
          else match parseNumber l with
               | Some (lit, rest) => Some (Number lit, rest)
               | None => None
               end
      end
  end
with parseElements (fuel : nat) (l : list ascii)
  : option (list value * list ascii) :=
  match fuel with
  | O => None
  | S f =>
      match parseValue f l with
      | None => None
      | Some (v, r) =>
          match skipWS r with
          | c :: r' =>
              if isc c "," then
                match parseElements f (skipWS r') with
                | Some (vs, rest) => Some (v :: vs, rest)
                | None => None
                end
              else if isc c "]" then Some ([v], r')
              else None
          | [] => None
          end
      end
  end
with parseMembers (fuel : nat) (l : list ascii)
  : option (list (string * list ascii * value) * list ascii) :=
  match fuel with
  | O => None
  | S f =>
      match l with
      | q :: r =>
          if isc q dq then
            match unquote (S (length r)) r with
            | None => None
            | Some (k, r1) =>
                match skipWS r1 with
                | c :: r2 =>
                    if isc c ":" then
                      let l3 := skipWS r2 in
                      match parseValue f l3 with
                      | None => None
                      | Some (v, r4) =>
                          let raw := take (length l3 - length r4) l3 in
                          match skipWS r4 with
                          | c' :: r5 =>
                              if isc c' "," then
                                match parseMembers f (skipWS r5) with
                                | Some (ms, rest) => Some ((str k, raw, v) :: ms, rest)
                                | None => None
                                end
                              else if isc c' "}" then Some ([(str k, raw, v)], r5)
                              else None
                          | [] => None
                          end
                      end
                    else None
                | [] => None
                end
            end
          else None
      | [] => None
      end
  end.

(** The whole input is one value between optional white space. *)
Definition parse (data : list ascii) : option value :=
  match parseValue (S (2 * length data)) (skipWS data) with
  | Some (v, rest) => match skipWS rest with [] => Some v | _ :: _ => None end
  | None => None
  end.
(** *** Decoding into the structs of the program *)

Definition bind {E A B} (m : E + A) (k : A -> E + B) : E + B :=
  match m with
  | inl e => inl e
  | inr a => k a
  end.

Notation "x <- m ;; k" := (bind m (fun x => k))
  (at level 100, m at next level, right associativity).

(** A scalar field: [null] leaves it as it is, a literal of another kind is
    an error.  An integer field takes a number literal that
    [strconv.ParseInt] reads in base 10. *)
Definition toInt64 (v : value) (old : Z) : json_error + Z :=
  match v with
  | Null => inr old
  | Number lit =>
      match strconv_Atoi (str lit) with
      | inr z => inr z
      | inl _ => inl UnmarshalTypeError
      end
  | _ => inl UnmarshalTypeError
  end.

Definition toString (v : value) (old : string) : json_error + string :=
  match v with
  | Null => inr old
  | Str s => inr s
  | _ => inl UnmarshalTypeError
  end.

Definition toBool (v : value) (old : bool) : json_error + bool :=
  match v with
  | Null => inr old
  | Bool b => inr b
  | _ => inl UnmarshalTypeError
  end.

Fixpoint toElements (vs : list value) : json_error + list string :=
  match vs with
  | [] => inr []
  | v :: vs' =>
      s <- toString v "" ;;
      ss <- toElements vs' ;;
      inr (s :: ss)
  end.

(** A [[]string] field: [null] makes it nil. *)
Definition toStrings (v : value) : json_error + option (list string) :=
  match v with
  | Null => inr None
  | Array vs => ss <- toElements vs ;; inr (Some ss)
  | _ => inl UnmarshalTypeError
  end.

Definition upper (c : Z) : Z :=
  if (97 <=? c) && (c <=? 122) then c - 32 else c.

(** [bytes.EqualFold] of an ASCII field name and a key: letters match
    without regard to case, and the two runes that fold to an ASCII letter,
    U+017F to [s] and U+212A to [k], match it as well. *)
Fixpoint equalFold (name key : list ascii) : bool :=
  match name, key with
  | [], [] => true
  | a :: name', b :: key1 =>
      if code b <? 128 then
        (upper (code a) =? upper (code b)) && equalFold name' key1
      else
        match key1 with
        | c :: key2 =>
            if (upper (code a) =? 83) && (code b =? 197) && (code c =? 191)
            then equalFold name' key2
            else match key2 with
                 | d :: key3 =>
                     (upper (code a) =? 75) && (code b =? 226)
                     && (code c =? 132) && (code d =? 170)
                     && equalFold name' key3
                 | [] => false
                 end
        | [] => false
        end
  | _, _ => false
  end.

Fixpoint indexWhere (f : string -> bool) (names : list string) : option nat :=
  match names with
  | [] => None
  | n :: names' =>
      if f n then Some O else option_map S (indexWhere f names')
  end.

(** The field a key goes to: the one of that very name, or else the first
    whose name matches without regard to case. *)
Definition findField (names : list string) (key : string) : option nat :=
  match indexWhere (String.eqb key) names with
  | Some i => Some i
  | None => indexWhere (fun n => equalFold (bytes n) (bytes key)) names
  end.

Section Struct.
Context {A : Type}.
Variable names : list string.
Variable set : nat -> list ascii -> value -> A -> json_error + A.

(** The members in the order of the text; a later one overwrites. *)
Fixpoint decodeMembers (ms : list (string * list ascii * value)) (acc : A)
  : json_error + A :=
  match ms with
  | [] => inr acc
  | (k, raw, v) :: ms' =>
      match findField names k with
      | Some i => acc' <- set i raw v acc ;; decodeMembers ms' acc'
      | None => decodeMembers ms' acc
      end
  end.

Definition decodeStruct (zero : A) (data : list ascii) : json_error + A :=
  match parse data with
  | None => inl SyntaxError
  | Some Null => inr zero
  | Some (Object ms) => decodeMembers ms zero
  | Some _ => inl UnmarshalTypeError
  end.
End Struct.

Definition ResponseFields : list string :=
  ["seq"; "type"; "request_seq"; "success"; "command"; "message"; "body"].

Definition setResponse (i : nat) (raw : list ascii) (v : value) (r : Response)
  : json_error + Response :=
  match i with
  | 0%nat =>
      x <- toInt64 v (Seq (respMessage r)) ;;
      inr {| respMessage := {| Seq := x; Type_ := Type_ (respMessage r) |};
             RequestSeq := RequestSeq r; Success := Success r;
             Command := Command r; Message := Message r; Body := Body r |}
  | 1%nat =>
      x <- toString v (Type_ (respMessage r)) ;;
      inr {| respMessage := {| Seq := Seq (respMessage r); Type_ := x |};
             RequestSeq := RequestSeq r; Success := Success r;
             Command := Command r; Message := Message r; Body := Body r |}
  | 2%nat =>
      x <- toInt64 v (RequestSeq r) ;;
      inr {| respMessage := respMessage r; RequestSeq := x; Success := Success r;
             Command := Command r; Message := Message r; Body := Body r |}
  | 3%nat =>
      x <- toBool v (Success r) ;;
      inr {| respMessage := respMessage r; RequestSeq := RequestSeq r; Success := x;
             Command := Command r; Message := Message r; Body := Body r |}
  | 4%nat =>
      x <- toString v (Command r) ;;
      inr {| respMessage := respMessage r; RequestSeq := RequestSeq r;
             Success := Success r; Command := x; Message := Message r;
             Body := Body r |}
  | 5%nat =>
      x <- toString v (Message r) ;;
      inr {| respMessage := respMessage r; RequestSeq := RequestSeq r;
             Success := Success r; Command := Command r; Message := x;
             Body := Body r |}
  | _ => (* body: the text of the value as it stands, [null] included *)
      inr {| respMessage := respMessage r; RequestSeq := RequestSeq r;
             Success := Success r; Command := Command r; Message := Message r;
             Body := Some raw |}
  end.

Definition UnmarshalResponse : Unmarshal Response :=
  decodeStruct ResponseFields setResponse zeroResponse.

(** The tags of [Capabilities] name no key, so the keys are the names of
    the fields. *)
Definition CapabilitiesFields : list string :=
  ["SupportsConfigurationDoneRequest";
   "SupportsFunctionBreakpoints"; "SupportsConditionalBreakpoints";
   "SupportsHitConditionalBreakpoints"; "SupportsEvaluateForHovers";
   "SupportsStepBack"; "SupportsSetVariable";
   "SupportsRestartFrame"; "SupportsGotoTargetsRequest";
   "SupportsStepInTargetsRequest"; "SupportsCompletionsRequest";
   "CompletionTriggerCharacters"; "SupportsModulesRequest"].

Definition zeroCapabilities : Capabilities :=
  {| SupportsConfigurationDoneRequest := false;
     SupportsFunctionBreakpoints := false;
     SupportsConditionalBreakpoints := false;
     SupportsHitConditionalBreakpoints := false;
     SupportsEvaluateForHovers := false;
     SupportsStepBack := false;
     SupportsSetVariable := false;
     SupportsRestartFrame := false;
     SupportsGotoTargetsRequest := false;
     SupportsStepInTargetsRequest := false;
     SupportsCompletionsRequest := false;
     CompletionTriggerCharacters := None;
     SupportsModulesRequest := false |}.

Definition setCapabilities (i : nat) (raw : list ascii) (v : value)
  (c : Capabilities) : json_error + Capabilities :=
  match i with
  | 0%nat => (* SupportsConfigurationDoneRequest *)
      x <- toBool v (SupportsConfigurationDoneRequest c) ;;
      inr
        {| SupportsConfigurationDoneRequest := x;
           SupportsFunctionBreakpoints := SupportsFunctionBreakpoints c;
           SupportsConditionalBreakpoints := SupportsConditionalBreakpoints c;
           SupportsHitConditionalBreakpoints := SupportsHitConditionalBreakpoints c;
           SupportsEvaluateForHovers := SupportsEvaluateForHovers c;
           SupportsStepBack := SupportsStepBack c;
           SupportsSetVariable := SupportsSetVariable c;
           SupportsRestartFrame := SupportsRestartFrame c;
           SupportsGotoTargetsRequest := SupportsGotoTargetsRequest c;
           SupportsStepInTargetsRequest := SupportsStepInTargetsRequest c;
           SupportsCompletionsRequest := SupportsCompletionsRequest c;
           CompletionTriggerCharacters := CompletionTriggerCharacters c;
           SupportsModulesRequest := SupportsModulesRequest c |}
  | 1%nat => (* SupportsFunctionBreakpoints *)
      x <- toBool v (SupportsFunctionBreakpoints c) ;;
      inr

           {| SupportsConfigurationDoneRequest := SupportsConfigurationDoneRequest c;
           SupportsFunctionBreakpoints := x;
           SupportsConditionalBreakpoints := SupportsConditionalBreakpoints c;
           SupportsHitConditionalBreakpoints := SupportsHitConditionalBreakpoints c;
           SupportsEvaluateForHovers := SupportsEvaluateForHovers c;
           SupportsStepBack := SupportsStepBack c;
           SupportsSetVariable := SupportsSetVariable c;
           SupportsRestartFrame := SupportsRestartFrame c;
           SupportsGotoTargetsRequest := SupportsGotoTargetsRequest c;
           SupportsStepInTargetsRequest := SupportsStepInTargetsRequest c;
           SupportsCompletionsRequest := SupportsCompletionsRequest c;
           CompletionTriggerCharacters := CompletionTriggerCharacters c;
           SupportsModulesRequest := SupportsModulesRequest c |}
  | 2%nat => (* SupportsConditionalBreakpoints *)
      x <- toBool v (SupportsConditionalBreakpoints c) ;;
      inr

           {| SupportsConfigurationDoneRequest := SupportsConfigurationDoneRequest c;
           SupportsFunctionBreakpoints := SupportsFunctionBreakpoints c;
           SupportsConditionalBreakpoints := x;
           SupportsHitConditionalBreakpoints := SupportsHitConditionalBreakpoints c;
           SupportsEvaluateForHovers := SupportsEvaluateForHovers c;
           SupportsStepBack := SupportsStepBack c;
           SupportsSetVariable := SupportsSetVariable c;
           SupportsRestartFrame := SupportsRestartFrame c;
           SupportsGotoTargetsRequest := SupportsGotoTargetsRequest c;
           SupportsStepInTargetsRequest := SupportsStepInTargetsRequest c;
           SupportsCompletionsRequest := SupportsCompletionsRequest c;
           CompletionTriggerCharacters := CompletionTriggerCharacters c;
           SupportsModulesRequest := SupportsModulesRequest c |}
  | 3%nat => (* SupportsHitConditionalBreakpoints *)
      x <- toBool v (SupportsHitConditionalBreakpoints c) ;;
      inr

           {| SupportsConfigurationDoneRequest := SupportsConfigurationDoneRequest c;
           SupportsFunctionBreakpoints := SupportsFunctionBreakpoints c;
           SupportsConditionalBreakpoints := SupportsConditionalBreakpoints c;
           SupportsHitConditionalBreakpoints := x;
           SupportsEvaluateForHovers := SupportsEvaluateForHovers c;
           SupportsStepBack := SupportsStepBack c;
           SupportsSetVariable := SupportsSetVariable c;
           SupportsRestartFrame := SupportsRestartFrame c;
           SupportsGotoTargetsRequest := SupportsGotoTargetsRequest c;
           SupportsStepInTargetsRequest := SupportsStepInTargetsRequest c;
           SupportsCompletionsRequest := SupportsCompletionsRequest c;
           CompletionTriggerCharacters := CompletionTriggerCharacters c;
           SupportsModulesRequest := SupportsModulesRequest c |}
  | 4%nat => (* SupportsEvaluateForHovers *)
      x <- toBool v (SupportsEvaluateForHovers c) ;;
      inr

           {| SupportsConfigurationDoneRequest := SupportsConfigurationDoneRequest c;
           SupportsFunctionBreakpoints := SupportsFunctionBreakpoints c;
           SupportsConditionalBreakpoints := SupportsConditionalBreakpoints c;
           SupportsHitConditionalBreakpoints := SupportsHitConditionalBreakpoints c;
           SupportsEvaluateForHovers := x;
           SupportsStepBack := SupportsStepBack c;
           SupportsSetVariable := SupportsSetVariable c;
           SupportsRestartFrame := SupportsRestartFrame c;
           SupportsGotoTargetsRequest := SupportsGotoTargetsRequest c;
           SupportsStepInTargetsRequest := SupportsStepInTargetsRequest c;
           SupportsCompletionsRequest := SupportsCompletionsRequest c;
           CompletionTriggerCharacters := CompletionTriggerCharacters c;
           SupportsModulesRequest := SupportsModulesRequest c |}
  | 5%nat => (* SupportsStepBack *)
      x <- toBool v (SupportsStepBack c) ;;
      inr

           {| SupportsConfigurationDoneRequest := SupportsConfigurationDoneRequest c;
           SupportsFunctionBreakpoints := SupportsFunctionBreakpoints c;
           SupportsConditionalBreakpoints := SupportsConditionalBreakpoints c;
           SupportsHitConditionalBreakpoints := SupportsHitConditionalBreakpoints c;
           SupportsEvaluateForHovers := SupportsEvaluateForHovers c;
           SupportsStepBack := x;
           SupportsSetVariable := SupportsSetVariable c;
           SupportsRestartFrame := SupportsRestartFrame c;
           SupportsGotoTargetsRequest := SupportsGotoTargetsRequest c;
           SupportsStepInTargetsRequest := SupportsStepInTargetsRequest c;
           SupportsCompletionsRequest := SupportsCompletionsRequest c;
           CompletionTriggerCharacters := CompletionTriggerCharacters c;
           SupportsModulesRequest := SupportsModulesRequest c |}
  | 6%nat => (* SupportsSetVariable *)
      x <- toBool v (SupportsSetVariable c) ;;
      inr

           {| SupportsConfigurationDoneRequest := SupportsConfigurationDoneRequest c;
           SupportsFunctionBreakpoints := SupportsFunctionBreakpoints c;
           SupportsConditionalBreakpoints := SupportsConditionalBreakpoints c;
           SupportsHitConditionalBreakpoints := SupportsHitConditionalBreakpoints c;
           SupportsEvaluateForHovers := SupportsEvaluateForHovers c;
           SupportsStepBack := SupportsStepBack c; SupportsSetVariable := x;
           SupportsRestartFrame := SupportsRestartFrame c;
           SupportsGotoTargetsRequest := SupportsGotoTargetsRequest c;
           SupportsStepInTargetsRequest := SupportsStepInTargetsRequest c;
           SupportsCompletionsRequest := SupportsCompletionsRequest c;
           CompletionTriggerCharacters := CompletionTriggerCharacters c;
           SupportsModulesRequest := SupportsModulesRequest c |}
  | 7%nat => (* SupportsRestartFrame *)
      x <- toBool v (SupportsRestartFrame c) ;;
      inr

           {| SupportsConfigurationDoneRequest := SupportsConfigurationDoneRequest c;
           SupportsFunctionBreakpoints := SupportsFunctionBreakpoints c;
           SupportsConditionalBreakpoints := SupportsConditionalBreakpoints c;
           SupportsHitConditionalBreakpoints := SupportsHitConditionalBreakpoints c;
           SupportsEvaluateForHovers := SupportsEvaluateForHovers c;
           SupportsStepBack := SupportsStepBack c;
           SupportsSetVariable := SupportsSetVariable c;
           SupportsRestartFrame := x;
           SupportsGotoTargetsRequest := SupportsGotoTargetsRequest c;
           SupportsStepInTargetsRequest := SupportsStepInTargetsRequest c;
           SupportsCompletionsRequest := SupportsCompletionsRequest c;
           CompletionTriggerCharacters := CompletionTriggerCharacters c;
           SupportsModulesRequest := SupportsModulesRequest c |}
  | 8%nat => (* SupportsGotoTargetsRequest *)
      x <- toBool v (SupportsGotoTargetsRequest c) ;;
      inr

           {| SupportsConfigurationDoneRequest := SupportsConfigurationDoneRequest c;
           SupportsFunctionBreakpoints := SupportsFunctionBreakpoints c;
           SupportsConditionalBreakpoints := SupportsConditionalBreakpoints c;
           SupportsHitConditionalBreakpoints := SupportsHitConditionalBreakpoints c;
           SupportsEvaluateForHovers := SupportsEvaluateForHovers c;
           SupportsStepBack := SupportsStepBack c;
           SupportsSetVariable := SupportsSetVariable c;
           SupportsRestartFrame := SupportsRestartFrame c;
           SupportsGotoTargetsRequest := x;
           SupportsStepInTargetsRequest := SupportsStepInTargetsRequest c;
           SupportsCompletionsRequest := SupportsCompletionsRequest c;
           CompletionTriggerCharacters := CompletionTriggerCharacters c;
           SupportsModulesRequest := SupportsModulesRequest c |}
  | 9%nat => (* SupportsStepInTargetsRequest *)
      x <- toBool v (SupportsStepInTargetsRequest c) ;;
      inr

           {| SupportsConfigurationDoneRequest := SupportsConfigurationDoneRequest c;
           SupportsFunctionBreakpoints := SupportsFunctionBreakpoints c;
           SupportsConditionalBreakpoints := SupportsConditionalBreakpoints c;
           SupportsHitConditionalBreakpoints := SupportsHitConditionalBreakpoints c;
           SupportsEvaluateForHovers := SupportsEvaluateForHovers c;
           SupportsStepBack := SupportsStepBack c;
           SupportsSetVariable := SupportsSetVariable c;
           SupportsRestartFrame := SupportsRestartFrame c;
           SupportsGotoTargetsRequest := SupportsGotoTargetsRequest c;
           SupportsStepInTargetsRequest := x;
           SupportsCompletionsRequest := SupportsCompletionsRequest c;
           CompletionTriggerCharacters := CompletionTriggerCharacters c;
           SupportsModulesRequest := SupportsModulesRequest c |}
  | 10%nat => (* SupportsCompletionsRequest *)
      x <- toBool v (SupportsCompletionsRequest c) ;;
      inr

           {| SupportsConfigurationDoneRequest := SupportsConfigurationDoneRequest c;
           SupportsFunctionBreakpoints := SupportsFunctionBreakpoints c;
           SupportsConditionalBreakpoints := SupportsConditionalBreakpoints c;
           SupportsHitConditionalBreakpoints := SupportsHitConditionalBreakpoints c;
           SupportsEvaluateForHovers := SupportsEvaluateForHovers c;
           SupportsStepBack := SupportsStepBack c;
           SupportsSetVariable := SupportsSetVariable c;
           SupportsRestartFrame := SupportsRestartFrame c;
           SupportsGotoTargetsRequest := SupportsGotoTargetsRequest c;
           SupportsStepInTargetsRequest := SupportsStepInTargetsRequest c;
           SupportsCompletionsRequest := x;
           CompletionTriggerCharacters := CompletionTriggerCharacters c;
           SupportsModulesRequest := SupportsModulesRequest c |}
  | 11%nat => (* CompletionTriggerCharacters *)
      x <- toStrings v ;;
      inr

           {| SupportsConfigurationDoneRequest := SupportsConfigurationDoneRequest c;
           SupportsFunctionBreakpoints := SupportsFunctionBreakpoints c;
           SupportsConditionalBreakpoints := SupportsConditionalBreakpoints c;
           SupportsHitConditionalBreakpoints := SupportsHitConditionalBreakpoints c;
           SupportsEvaluateForHovers := SupportsEvaluateForHovers c;
           SupportsStepBack := SupportsStepBack c;
           SupportsSetVariable := SupportsSetVariable c;
           SupportsRestartFrame := SupportsRestartFrame c;
           SupportsGotoTargetsRequest := SupportsGotoTargetsRequest c;
           SupportsStepInTargetsRequest := SupportsStepInTargetsRequest c;
           SupportsCompletionsRequest := SupportsCompletionsRequest c;
           CompletionTriggerCharacters := x;
           SupportsModulesRequest := SupportsModulesRequest c |}
  | 12%nat => (* SupportsModulesRequest *)
      x <- toBool v (SupportsModulesRequest c) ;;
      inr

           {| SupportsConfigurationDoneRequest := SupportsConfigurationDoneRequest c;
           SupportsFunctionBreakpoints := SupportsFunctionBreakpoints c;
           SupportsConditionalBreakpoints := SupportsConditionalBreakpoints c;
           SupportsHitConditionalBreakpoints := SupportsHitConditionalBreakpoints c;
           SupportsEvaluateForHovers := SupportsEvaluateForHovers c;
           SupportsStepBack := SupportsStepBack c;
           SupportsSetVariable := SupportsSetVariable c;
           SupportsRestartFrame := SupportsRestartFrame c;
           SupportsGotoTargetsRequest := SupportsGotoTargetsRequest c;
           SupportsStepInTargetsRequest := SupportsStepInTargetsRequest c;
           SupportsCompletionsRequest := SupportsCompletionsRequest c;
           CompletionTriggerCharacters := CompletionTriggerCharacters c;
           SupportsModulesRequest := x |}
  | _ => inr c
  end.

Definition UnmarshalCapabilities : Unmarshal Capabilities :=
  decodeStruct CapabilitiesFields setCapabilities zeroCapabilities.
(** *** Encoding *)

Definition hexDigit (n : Z) : ascii :=
  if n <? 10 then byte (48 + n) else byte (87 + n).

Definition u00 (b : Z) : list ascii :=
  bytes "\u00" ++ [hexDigit (b / 16); hexDigit (b mod 16)].

Definition htmlSafe (b : Z) : bool :=
  (32 <=? b) && negb ((b =? 34) || (b =? 38) || (b =? 60) || (b =? 62) || (b =? 92)).

(** The text of a string between its quotes: quote and backslash escaped,
    line feed, carriage return and tab by their letter, the other control
    characters and the three HTML characters as [\u00XX] (recent releases
    write backspace and form feed by their letter), invalid UTF-8 as
    [\ufffd], U+2028 and U+2029 as escapes. *)
Fixpoint quoteBody (fuel : nat) (l : list ascii) : list ascii :=
  match fuel with
  | O => []
  | S f =>
      match l with
      | [] => []
      | c :: r =>
          let b := code c in
          if b <? 128 then
            (if htmlSafe b then [c]
             else if (b =? 92) || (b =? 34) then [bs; c]
             else if b =? 10 then [bs; "n"%char]
             else if b =? 13 then [bs; "r"%char]
             else if b =? 9 then [bs; "t"%char]
             else u00 b) ++ quoteBody f r
          else
            let '(rr, size) := DecodeRune l in
            if (rr =? RuneError) && (size =? 1)%nat then
              bytes "\ufffd" ++ quoteBody f r
            else if (rr =? 8232) || (rr =? 8233) then
              bytes "\u202" ++ [hexDigit (rr mod 16)] ++ quoteBody f (drop size l)
            else take size l ++ quoteBody f (drop size l)
      end
  end.

Definition quote (s : string) : list ascii :=
  [dq] ++ quoteBody (String.length s) (bytes s) ++ [dq].

Definition itoa (z : Z) : list ascii :=
  if z <? 0 then "-"%char :: fmt_d (- z) else fmt_d z.

Definition field (name : string) (v : list ascii) : list ascii :=
  [dq] ++ bytes name ++ [dq] ++ bytes ":" ++ v.

Fixpoint commas (fs : list (list ascii)) : list ascii :=
  match fs with
  | [] => []
  | [f] => f
  | f :: fs' => f ++ bytes "," ++ commas fs'
  end.

Definition object (fs : list (list ascii)) : list ascii :=
  bytes "{" ++ commas fs ++ bytes "}".

(** A field tagged [omitempty] is left out when its string is empty. *)
Definition omitempty (name s : string) : list (list ascii) :=
  if String.eqb s "" then [] else [field name (quote s)].

Definition encodeArgs (a : InitializeRequestArgs) : list ascii :=
  object (omitempty "clientID" (ClientID a)
          ++ omitempty "clientName" (ClientName a)
          ++ [field "adapterID" (quote (AdapterID a))]
          ++ omitempty "locale" (Locale a)).

Definition MarshalRequest : Marshal Request := fun r =>
  inr (object
         ([field "seq" (itoa (Seq (reqMessage r)));
           field "type" (quote (Type_ (reqMessage r)));
           field "command" (quote (reqCommand r))]
          ++ match Arguments r with
             | Some a => [field "arguments" (encodeArgs a)]
             | None => []
             end)).

(** Where the scanner stands after a byte: inside a string or not, and
    right after a backslash or not. *)
Definition scanStep (inStr esc : bool) (c : ascii) : bool * bool :=
  if inStr then
    if esc then (true, false)
    else if isc c bs then (true, true)
    else if isc c dq then (false, false)
    else (true, false)
  else (isc c dq, false).

Definition isHTML (b : Z) : bool := (b =? 60) || (b =? 62) || (b =? 38).

(** [json.Compact] with HTML escaping, on a text that is valid JSON:
    white space outside of strings goes, the three HTML characters and
    U+2028, U+2029 become escapes. *)
Fixpoint compact (inStr esc : bool) (l : list ascii) : list ascii :=
  match l with
  | [] => []
  | c :: r =>
      let '(inStr', esc') := scanStep inStr esc c in
      let rest := compact inStr' esc' r in
      let b := code c in
      if isHTML b then u00 b ++ rest
      else if negb inStr && isWS c then rest
      else
        match r with
        | c1 :: c2 :: r2 =>
            if (b =? 226) && (code c1 =? 128)
               && ((code c2 =? 168) || (code c2 =? 169))
            then bytes "\u202" ++ [hexDigit (code c2 mod 16)] ++ compact inStr esc r2
            else c :: rest
        | _ => c :: rest
        end
  end.

(** A [json.RawMessage]: [null] when nil, otherwise its text compacted,
    which has to be valid. *)
Definition encodeRaw (m : option (list ascii)) : json_error + list ascii :=
  match m with
  | None => inr (bytes "null")
  | Some raw =>
      match parse raw with
      | Some _ => inr (compact false false raw)
      | None => inl MarshalerError
      end
  end.

Definition MarshalResponse : Marshal Response := fun r =>
  body <- encodeRaw (Body r) ;;
  inr (object
         [field "seq" (itoa (Seq (respMessage r)));
          field "type" (quote (Type_ (respMessage r)));
          field "request_seq" (itoa (RequestSeq r));
          field "success" (bytes (if Success r then "true" else "false"));
          field "command" (quote (Command r));
          field "message" (quote (Message r));
          field "body" body]).
End json.

(** ** Test vectors *)

(** JSON text written with single quotes for the double ones. *)
Definition js (s : string) : list ascii :=
  map (fun a => if Ascii.eqb a "'" then json.dq else a) (bytes s).

(** A frame as the protocol writes it. *)
Definition frame (body : list ascii) : list ascii :=
  bytes "Content-Length: " ++ fmt_d (len body) ++ bytes CRLF ++ bytes CRLF ++ body.

(** The bytes of a peer that sends [data] and closes the stream. *)
Definition closing (data : list ascii) : Reader :=
  {| pending := data; final := EOF |}.

(** ** The rounds of [listen]

    What the outer loop meets on a stream, whatever the registry holds: a
    decoded response or a frame skipped for want of a length ([None]) per
    round, and how the loop ends. *)

Section Rounds.
Context {U : Unmarshal Response}.

Fixpoint roundsLoop (fuel : nat) (r : Reader)
  : option (list (option Response) * exit) :=
  match fuel with
  | O => None
  | S fuel' =>
      match readFrame r with
      | None => None
      | Some (Stopped e) => Some ([], e)
      | Some (NoLength r1) =>
          match roundsLoop fuel' r1 with
          | Some (evs, e) => Some (None :: evs, e)
          | None => None
          end
      | Some (Decoded resp r2) =>
          match roundsLoop fuel' r2 with
          | Some (evs, e) => Some (Some resp :: evs, e)
          | None => None
          end
      end
  end.

Definition rounds (r : Reader) : option (list (option Response) * exit) :=
  roundsLoop (S (length (pending r))) r.
End Rounds.

(** What a round does to the process. *)
Definition round (p : Process) (ev : option Response) : Process :=
  match ev with
  | Some resp => dispatch resp p
  | None => log LogNoContentLength p
  end.

(** The first response among the rounds that answers request [seq]. *)
Definition firstAnswer (seq : Z) (evs : list (option Response)) : option Response :=
  head (filter (fun resp => RequestSeq resp = seq) (omap id evs)).

(** [seq] is the one number registered with channel [ch]. *)
Definition waits (p : Process) (seq : Z) (ch : chan) : Prop :=
  responseChans p !! seq = Some ch
  /\ forall k, responseChans p !! k = Some ch -> k = seq.

(** An ASCII byte that is no white space. *)
Definition plain (a : ascii) : Prop :=
  code a < 128 /\ isSpace1 (code a) = false.

(** ** Header blocks as they arrive

    [lineText l] is [line] of line 96 for the bytes [l] before a line feed.
    A header line is one the inner loop goes on to split, a blank line one
    that ends the block. *)

Definition lineText (l : list ascii) : string :=
  str (bytes_TrimSpace (l ++ [LF])).

Definition isHeaderLine (l : list ascii) : Prop :=
  (LF ∉ l) /\ lineText l <> "".

Definition isBlankLine (l : list ascii) : Prop :=
  (LF ∉ l) /\ lineText l = "".

Definition wireLines (ls : list (list ascii)) : list ascii :=
  concat (map (fun l => l ++ [LF]) ls).

(** The value of the last pair under the key [k]. *)
Definition lastValue (k : string) (kvs : list (string * string)) : option string :=
  snd <$> last (filter (fun kv => kv.1 = k) kvs).

(** A response to a request that was never sent. *)
Definition unsolicited : list ascii :=
  js "{'seq':7,'type':'response','request_seq':42,'success':true,'command':'threads'}".

(** An event that carries the number of the first request. *)
Definition strayEvent : list ascii :=
  js "{'seq':9,'type':'event','event':'stopped','request_seq':1}".

(** The reply of the handshake scenario. *)
Definition reply : list ascii :=
  js "{'seq':1,'type':'response','request_seq':1,'success':true,'command':'initialize','body':{'supportsConfigurationDoneRequest':true}}".

Definition decodedReply : Response :=
  {| respMessage := {| Seq := 1; Type_ := "response" |}; RequestSeq := 1;
     Success := true; Command := "initialize"; Message := "";
     Body := Some (js "{'supportsConfigurationDoneRequest':true}") |}.

Definition decodedEvent : Response :=
  {| respMessage := {| Seq := 9; Type_ := "event" |}; RequestSeq := 1;
     Success := false; Command := ""; Message := ""; Body := None |}.

(** [decodedReply] as [json.Marshal] writes it. *)
Definition encodedReply : list ascii :=
  js "{'seq':1,'type':'response','request_seq':1,'success':true,'command':'initialize','message':'','body':{'supportsConfigurationDoneRequest':true}}".

(** What [unsolicited] decodes to: a response without a body, [Body] left
    nil. *)
Definition decodedUnsolicited : Response :=
  {| respMessage := {| Seq := 7; Type_ := "response" |}; RequestSeq := 42;
     Success := true; Command := "threads"; Message := ""; Body := None |}.

(** [decodedUnsolicited] as [json.Marshal] writes it: the nil body is
    written [null]. *)
Definition encodedUnsolicited : list ascii :=
  js "{'seq':7,'type':'response','request_seq':42,'success':true,'command':'threads','message':'','body':null}".

(** What [encodedUnsolicited] decodes to: the raw body holds the four bytes
    of [null]. *)
Definition decodedNull : Response :=
  {| respMessage := {| Seq := 7; Type_ := "response" |}; RequestSeq := 42;
     Success := true; Command := "threads"; Message := "";
     Body := Some (bytes "null") |}.

(** [decodedReply] with white space in its raw body. *)
Definition spacedReply : Response :=
  {| respMessage := {| Seq := 1; Type_ := "response" |}; RequestSeq := 1;
     Success := true; Command := "initialize"; Message := "";
     Body := Some (js "{ 'supportsConfigurationDoneRequest' : true }") |}.

(** The process once [initialize] has sent the first request. *)
Definition awaiting : Process :=
  (initializeSend (M := json.MarshalRequest) start).2.

(** ** Further code: requests in a row, deliveries, the input loop *)

(** [k] calls of [NewRequest], one after the other. *)
Fixpoint NewRequests (k : nat) (p : Process) : list ProtocolMessage * Process :=
  match k with
  | O => ([], p)
  | S k' =>
      let '(m, p1) := NewRequest p in
      let '(ms, p2) := NewRequests k' p1 in
      (m :: ms, p2)
  end.

(** What lines 128-129 do for a list of channels and responses. *)
Definition deliveryOps (ds : list (chan * Response)) : list chanOp :=
  flat_map (fun d => [ChSend d.1 d.2; ChClose d.1]) ds.

(** No channel is registered under two numbers. *)
Definition distinctChans (p : Process) : Prop :=
  forall k1 k2 c,
    responseChans p !! k1 = Some c -> responseChans p !! k2 = Some c -> k1 = k2.

(** A body the decoder accepts as the response [resp]. *)
Definition decodes {U : Unmarshal Response} (body : list ascii) (resp : Response) : Prop :=
  json_Unmarshal body = inr resp /\ len body <= maxAlloc.

(** The frames of a list of bodies, back to back. *)
Definition frames (bodies : list (list ascii)) : list ascii :=
  concat (map frame bodies).

(** ** [handleInput]

    [bufio.Scanner] with its default split function [ScanLines] and its
    default buffer: a token is a line without its line feed and without a
    carriage return before it; the last line needs no line feed.  A line
    that does not fit the buffer of [MaxScanTokenSize] bytes together with
    its line feed ends the scan with [ErrTooLong]. *)

Definition MaxScanTokenSize : Z := 65536.

Definition dropCR (l : list ascii) : list ascii :=
  match rev l with
  | c :: r => if Ascii.eqb c CR then rev r else l
  | [] => l
  end.

Inductive scanError := ErrTooLong | ErrRead (e : io_error).

(** One call of [Scan]: the token and the reader after it, or the end of
    the scan with what [Err] then returns. *)
Definition Scan (r : Reader) : list ascii * Reader + option scanError :=
  match untilDelim LF (pending r) with
  | Some (line, rest) =>
      if len line <=? MaxScanTokenSize
      then inl (dropCR (removelast line), advance r rest)
      else inr (Some ErrTooLong)
  | None =>
      if MaxScanTokenSize <=? len (pending r) then inr (Some ErrTooLong)
      else match pending r with
           | [] => inr (match final r with EOF => None | e => Some (ErrRead e) end)
           | _ :: _ => inl (dropCR (pending r), advance r [])
           end
  end.

(** Lines 165-178.  The result is what was printed on the standard output
    and the error that line 176 logs, if any.  The text of a line is not
    used by the code. *)
Fixpoint handleInputLoop (fuel : nat) (stdin : Reader) (stdout : list ascii)
  : option (list ascii * option scanError) :=
  match fuel with
  | O => None
  | S fuel' =>
      let stdout' := stdout ++ bytes "> " in
      match Scan stdin with
      | inl (_, stdin') => handleInputLoop fuel' stdin' stdout'
      | inr err => Some (stdout', err)
      end
  end.

Definition handleInput (stdin : Reader) : option (list ascii * option scanError) :=
  handleInputLoop (S (S (length (pending stdin)))) stdin [].

(** [n] prompts. *)
Definition prompts (n : nat) : list ascii := concat (replicate n (bytes "> ")).

(** A line that fits the buffer of the scanner. *)
Definition fitsScanner (l : list ascii) : Prop :=
  (LF ∉ l) /\ len l < MaxScanTokenSize.

(** * Properties *)

(** ** The models on examples *)

Example TrimSpace_ascii :
  bytes_TrimSpace (byte 9 :: bytes " Content-Length: 12 " ++ [CR; LF])
  = bytes "Content-Length: 12".
Proof. reflexivity. Qed.

Example TrimSpace_unicode :
  bytes_TrimSpace ([byte 194; byte 160] ++ bytes "a" ++ [byte 226; byte 128; byte 168])
  = bytes "a".
Proof. reflexivity. Qed.

Example TrimSpace_invalid_utf8 :
  bytes_TrimSpace (bytes "a" ++ [byte 128; byte 32]) = bytes "a" ++ [byte 128].
Proof. reflexivity. Qed.

Example Split_three : strings_Split "Foo: a:b" colon = ["Foo"; " a"; "b"].
Proof. reflexivity. Qed.

Example Split_one : strings_Split "Foo" colon = ["Foo"].
Proof. reflexivity. Qed.

Example Atoi_signed : strconv_Atoi "-5" = inr (-5) /\ strconv_Atoi "+5" = inr 5.
Proof. split; reflexivity. Qed.

Example Atoi_range :
  strconv_Atoi "9223372036854775807" = inr 9223372036854775807
  /\ strconv_Atoi "9223372036854775808" = inl ErrRange
  /\ strconv_Atoi "-9223372036854775808" = inr (-9223372036854775808).
Proof. split_and!; reflexivity. Qed.

Example Atoi_syntax :
  strconv_Atoi "12a" = inl ErrSyntax /\ strconv_Atoi "" = inl ErrSyntax
  /\ strconv_Atoi "-" = inl ErrSyntax /\ strconv_Atoi " 5" = inl ErrSyntax.
Proof. split_and!; reflexivity. Qed.

Example fmt_d_digits : fmt_d 1205 = bytes "1205" /\ fmt_d 0 = bytes "0".
Proof. split; reflexivity. Qed.

Example sent_request :
  wire awaiting
  = bytes "Content-Length: 85" ++ [CR; LF; CR; LF]
    ++ js "{'seq':1,'type':'request','command':'initialize','arguments':{'adapterID':'dap-cli'}}".
Proof. reflexivity. Qed.

Example decode_reply : json.UnmarshalResponse reply = inr decodedReply.
Proof. reflexivity. Qed.

Example decode_event : json.UnmarshalResponse strayEvent = inr decodedEvent.
Proof. reflexivity. Qed.

Example decode_keys_fold :
  json.UnmarshalResponse (js "{'SEQ':3, 'Request_Seq' : 4, 'unknown':[1,{}]}")
  = inr {| respMessage := {| Seq := 3; Type_ := "" |}; RequestSeq := 4;
           Success := false; Command := ""; Message := ""; Body := None |}.
Proof. reflexivity. Qed.

Example decode_null_and_raw :
  json.UnmarshalResponse (js "{'seq':null,'command':'aA\n','body': [1, 2] }")
  = inr {| respMessage := {| Seq := 0; Type_ := "" |}; RequestSeq := 0;
           Success := false; Command := String "a" (String "A" (String LF ""));
           Message := ""; Body := Some (bytes "[1, 2]") |}.
Proof. reflexivity. Qed.

Example decode_errors :
  json.UnmarshalResponse (js "{'seq':'1'}") = inl UnmarshalTypeError
  /\ json.UnmarshalResponse (js "{'seq':1.5}") = inl UnmarshalTypeError
  /\ json.UnmarshalResponse (js "[]") = inl UnmarshalTypeError
  /\ json.UnmarshalResponse (js "{'seq':1,}") = inl SyntaxError
  /\ json.UnmarshalResponse (js "{'seq':01}") = inl SyntaxError
  /\ json.UnmarshalResponse [] = inl SyntaxError
  /\ json.UnmarshalResponse (js " null ") = inr zeroResponse.
Proof. split_and!; reflexivity. Qed.

Example encode_reply : json.MarshalResponse decodedReply = inr encodedReply.
Proof. reflexivity. Qed.

Example encode_escapes :
  json.quote (String "a" (String (byte 34) (String "<" (String LF ""))))
  = js "'a\'\u003c\n'".
Proof. reflexivity. Qed.

(** The scenario of the specification: a header block without a length is
    skipped with a warning, and the loop goes on with the next block. *)
Example missing_length_is_a_warning :
  listen (U := json.UnmarshalResponse) awaiting
    (closing (bytes "Foo: bar" ++ [CR; LF; CR; LF] ++ frame reply))
  = Some (Return,
          dispatch decodedReply (log LogNoContentLength awaiting)).
Proof. vm_compute. reflexivity. Qed.

(** ** Reading lines *)

Lemma untilDelim_split d l line rest :
  untilDelim d l = Some (line, rest) ->
  exists pre, line = pre ++ [d] /\ l = pre ++ d :: rest /\ d ∉ pre.
Proof.
  revert line rest. induction l as [|a l IH]; intros line rest; simpl; [done|].
  destruct (Ascii.eqb_spec a d) as [->|Hne].
  - intros [= <- <-]. exists []. split_and!; [done..|]. apply not_elem_of_nil.
  - destruct (untilDelim d l) as [[line' rest']|]; [|done].
    intros [= <- <-]. destruct (IH _ _ eq_refl) as (pre & -> & -> & Hpre).
    exists (a :: pre). split_and!; [done..|].
    rewrite elem_of_cons. intros [->|?]; done.
Qed.

Lemma untilDelim_found d pre rest :
  d ∉ pre -> untilDelim d (pre ++ d :: rest) = Some (pre ++ [d], rest).
Proof.
  induction pre as [|a pre IH]; simpl; intros Hd.
  - by rewrite Ascii.eqb_refl.
  - apply not_elem_of_cons in Hd as [Hne Hd].
    destruct (Ascii.eqb_spec a d) as [->|_]; [done|]. by rewrite IH.
Qed.

Lemma untilDelim_none d l : d ∉ l -> untilDelim d l = None.
Proof.
  induction l as [|a l IH]; simpl; [done|]. intros Hd.
  apply not_elem_of_cons in Hd as [Hne Hd].
  destruct (Ascii.eqb_spec a d) as [->|_]; [done|]. by rewrite IH.
Qed.

Lemma ReadBytes_line r d pre rest :
  pending r = pre ++ d :: rest -> d ∉ pre ->
  ReadBytes r d = (pre ++ [d], None, advance r rest).
Proof. intros Hp Hd. unfold ReadBytes. by rewrite Hp, untilDelim_found. Qed.

Lemma ReadBytes_end r d :
  d ∉ pending r -> ReadBytes r d = (pending r, Some (final r), advance r []).
Proof. intros Hd. unfold ReadBytes. by rewrite untilDelim_none. Qed.

Lemma ReadBytes_shorter r d line r' :
  ReadBytes r d = (line, None, r') ->
  (length (pending r') < length (pending r))%nat.
Proof.
  unfold ReadBytes. destruct (untilDelim d (pending r)) as [[l rest]|] eqn:E; [|done].
  intros [= <- <-]. apply untilDelim_split in E as (pre & _ & -> & _).
  simpl. rewrite length_app. simpl. lia.
Qed.

(** ** Fuel *)

Lemma readHeaders_fuel f1 f2 h r :
  (length (pending r) < f1)%nat -> (length (pending r) < f2)%nat ->
  readHeaders f1 h r = readHeaders f2 h r.
Proof.
  revert f2 h r. induction f1 as [|f1 IH]; intros [|f2] h r H1 H2; try lia.
  simpl. destruct (ReadBytes r LF) as [[data err] r'] eqn:E.
  destruct err as [e|]; [done|].
  apply ReadBytes_shorter in E.
  destruct (_ =? _)%nat; [done|].
  destruct (headerFields _) as [|[name value]]; [done|]. apply IH; lia.
Qed.

Lemma readHeaders_unfold f h r :
  (length (pending r) < f)%nat ->
  readHeaders f h r =
    match ReadBytes r LF with
    | (_, Some EOF, _) => Some (inl Return)
    | (_, Some e, _) => Some (inl (Fatal (FatalReadLine e)))
    | (data, None, r') =>
        let line := str (bytes_TrimSpace data) in
        if (String.length line =? 0)%nat then Some (inr (h, r'))
        else match headerFields line with
             | inl p => Some (inl (Panic p))
             | inr (name, value) =>
                 readHeaders (S (length (pending r'))) (<[name := value]> h) r'
             end
    end.
Proof.
  intros Hf. destruct f as [|f]; [lia|].
  destruct (ReadBytes r LF) as [[data err] r'] eqn:E.
  simpl (readHeaders (S f) h r). rewrite E.
  destruct err as [e|]; [done|].
  apply ReadBytes_shorter in E. cbv zeta.
  destruct (_ =? _)%nat; [done|].
  destruct (headerFields _) as [|[name value]]; [done|]. apply readHeaders_fuel; lia.
Qed.

Lemma readHeaders_total f h r :
  (length (pending r) < f)%nat -> is_Some (readHeaders f h r).
Proof.
  revert h r. induction f as [|f IH]; intros h r Hf; [lia|]. simpl.
  destruct (ReadBytes r LF) as [[data err] r'] eqn:E.
  destruct err as [[]|]; [done..|].
  apply ReadBytes_shorter in E.
  destruct (_ =? _)%nat; [done|].
  destruct (headerFields _) as [|[name value]]; [done|]. apply IH; lia.
Qed.

Lemma readHeaders_shorter f h r h' r' :
  readHeaders f h r = Some (inr (h', r')) ->
  (length (pending r') < length (pending r))%nat.
Proof.
  revert h r. induction f as [|f IH]; intros h r; simpl; [done|].
  destruct (ReadBytes r LF) as [[data err] r1] eqn:E.
  destruct err as [[]|]; [done..|].
  apply ReadBytes_shorter in E.
  destruct (_ =? _)%nat; [intros [= <- <-]; done|].
  destruct (headerFields _) as [|[name value]]; [done|]. intros H%IH. lia.
Qed.

Lemma readHeaderBlock_total r : is_Some (readHeaderBlock r).
Proof. apply readHeaders_total. lia. Qed.

Lemma ReadFull_ok r n body r' :
  ReadFull r n = inr (body, r') ->
  pending r = body ++ pending r' /\ length body = n /\ final r' = final r.
Proof.
  unfold ReadFull. destruct (Nat.eqb_spec n 0) as [->|Hn].
  { by intros [= <- <-]. }
  destruct (Nat.leb_spec n (length (pending r))) as [Hle|Hlt].
  - intros [= <- <-]. simpl. rewrite take_drop, length_take. split_and!; [done|lia|done].
  - by destruct (pending r).
Qed.

Lemma ReadFull_enough r body rest :
  pending r = body ++ rest ->
  ReadFull r (length body) = inr (body, if (length body =? 0)%nat then r else advance r rest).
Proof.
  intros Hp. unfold ReadFull. destruct (Nat.eqb_spec (length body) 0) as [H0|Hn].
  { apply nil_length_inv in H0 as ->. done. }
  rewrite Hp, length_app.
  destruct (Nat.leb_spec (length body) (length body + length rest)); [|lia].
  by rewrite take_app_length, drop_app_length.
Qed.

Section ListenFuel.
Context {U : Unmarshal Response}.

Lemma readBody_shorter v r1 :
  match readBody v r1 with
  | NoLength r' | Decoded _ r' => (length (pending r') <= length (pending r1))%nat
  | Stopped _ => True
  end.
Proof.
  unfold readBody. destruct (String.eqb _ _); [done|].
  destruct (strconv_Atoi _); [done|].
  destruct (makeslice _); [|done].
  destruct (ReadFull r1 n) as [[]|[body r2]] eqn:ER; [done..|].
  apply ReadFull_ok in ER as (Hp & _ & _).
  destruct (json_Unmarshal body); [done|].
  rewrite Hp, length_app. lia.
Qed.

Lemma readFrame_total r : is_Some (readFrame r).
Proof.
  unfold readFrame. by destruct (readHeaderBlock_total r) as [[e|[h r1]] ->].
Qed.

Lemma readFrame_shorter r d :
  readFrame r = Some d ->
  match d with
  | NoLength r' | Decoded _ r' => (length (pending r') < length (pending r))%nat
  | Stopped _ => True
  end.
Proof.
  unfold readFrame. destruct (readHeaderBlock r) as [[e|[h r1]]|] eqn:E; [| |done].
  { by intros [= <-]. }
  apply readHeaders_shorter in E. intros [= <-].
  pose proof (readBody_shorter (default "" (h !! "Content-Length")) r1) as Hb.
  destruct (readBody _ r1); [lia|done|lia].
Qed.

Lemma listenLoop_fuel f1 f2 p r :
  (length (pending r) < f1)%nat -> (length (pending r) < f2)%nat ->
  listenLoop f1 p r = listenLoop f2 p r.
Proof.
  revert f2 p r. induction f1 as [|f1 IH]; intros [|f2] p r H1 H2; try lia.
  simpl. destruct (readFrame r) as [d|] eqn:E; [|done].
  apply readFrame_shorter in E. destruct d; [apply IH; lia|done|apply IH; lia].
Qed.

(** One round of the outer loop, and [listen] again on what is left. *)
Lemma listen_unfold p r :
  listen p r =
    match readFrame r with
    | None => None
    | Some (Stopped e) => Some (e, p)
    | Some (NoLength r1) => listen (log LogNoContentLength p) r1
    | Some (Decoded resp r2) => listen (dispatch resp p) r2
    end.
Proof.
  unfold listen at 1. simpl. destruct (readFrame r) as [d|] eqn:E; [|done].
  apply readFrame_shorter in E.
  destruct d; [apply listenLoop_fuel; lia|done|apply listenLoop_fuel; lia].
Qed.

Lemma listenLoop_total f p r :
  (length (pending r) < f)%nat -> is_Some (listenLoop f p r).
Proof.
  revert p r. induction f as [|f IH]; intros p r Hf; [lia|]. simpl.
  destruct (readFrame_total r) as [d E]. rewrite E.
  apply readFrame_shorter in E. destruct d; [apply IH; lia|done|apply IH; lia].
Qed.

(** [listen] ends on every stream: by returning, by [log.Fatalf] or by a
    panic. *)
Lemma listen_total p r : is_Some (listen p r).
Proof. apply listenLoop_total. lia. Qed.

End ListenFuel.

(** ** Header blocks *)

Lemma str_length l : String.length (str l) = length l.
Proof. induction l; simpl; congruence. Qed.

Lemma str_nil l : str l = "" <-> l = [].
Proof. destruct l; simpl; split; congruence. Qed.

Lemma readHeaders_header_line f h l rest fin :
  isHeaderLine l ->
  (length (l ++ LF :: rest) < f)%nat ->
  readHeaders f h {| pending := l ++ LF :: rest; final := fin |} =
    match headerFields (lineText l) with
    | inl p => Some (inl (Panic p))
    | inr (name, value) =>
        readHeaders (S (length rest)) (<[name := value]> h)
          {| pending := rest; final := fin |}
    end.
Proof.
  intros [Hlf Hne] Hf. rewrite readHeaders_unfold by done.
  erewrite ReadBytes_line by (simpl; done). fold (lineText l). cbv zeta.
  destruct (Nat.eqb_spec (String.length (lineText l)) 0) as [H0|_]; [|done].
  destruct (lineText l); [done|discriminate].
Qed.

Lemma readHeaders_blank_line f h l rest fin :
  isBlankLine l ->
  (length (l ++ LF :: rest) < f)%nat ->
  readHeaders f h {| pending := l ++ LF :: rest; final := fin |} =
    Some (inr (h, {| pending := rest; final := fin |})).
Proof.
  intros [Hlf He] Hf. rewrite readHeaders_unfold by done.
  erewrite ReadBytes_line by (simpl; done). fold (lineText l). cbv zeta.
  by rewrite He.
Qed.

Lemma readHeaders_lines f h lines kvs rest fin :
  Forall2 (fun l kv => isHeaderLine l /\ headerFields (lineText l) = inr kv) lines kvs ->
  (length (wireLines lines ++ rest) < f)%nat ->
  readHeaders f h {| pending := wireLines lines ++ rest; final := fin |} =
    readHeaders (S (length rest)) (foldl (fun m kv => <[kv.1 := kv.2]> m) h kvs)
      {| pending := rest; final := fin |}.
Proof.
  intros Hl. revert f h.
  induction Hl as [|l [k v] lines kvs [Hh Hf] _ IH]; intros f h Hlen.
  - apply (readHeaders_fuel f (S (length rest)) h {| pending := rest; final := fin |});
      [exact Hlen|simpl; lia].
  - unfold wireLines in *. simpl in *. rewrite <- !app_assoc in *. simpl in *.
    rewrite readHeaders_header_line, Hf by done. apply IH. lia.
Qed.

Lemma foldl_insert_last (h : gmap string string) kvs k :
  foldl (fun m kv => <[kv.1 := kv.2]> m) h kvs !! k =
    match lastValue k kvs with
    | Some v => Some v
    | None => h !! k
    end.
Proof.
  unfold lastValue. induction kvs as [|[k' v'] kvs IH] using rev_ind; [done|].
  rewrite foldl_app, filter_app. simpl.
  destruct (decide (k' = k)) as [->|Hne].
  - rewrite filter_cons_True by done. rewrite filter_nil, last_snoc. simpl.
    apply lookup_insert_eq.
  - rewrite filter_cons_False by done. rewrite filter_nil, app_nil_r.
    by rewrite lookup_insert_ne.
Qed.

Lemma readHeaderBlock_lines lines kvs blank rest fin :
  Forall2 (fun l kv => isHeaderLine l /\ headerFields (lineText l) = inr kv) lines kvs ->
  isBlankLine blank ->
  readHeaderBlock {| pending := wireLines lines ++ blank ++ LF :: rest; final := fin |}
    = Some (inr (foldl (fun m kv => <[kv.1 := kv.2]> m) ∅ kvs,
                 {| pending := rest; final := fin |})).
Proof.
  intros Hl Hb. unfold readHeaderBlock.
  rewrite (readHeaders_lines _ _ lines kvs) by (done || (simpl; lia)).
  apply readHeaders_blank_line; [done|simpl; lia].
Qed.

Lemma headers_lookup kvs name :
  foldl (fun m kv => <[kv.1 := kv.2]> m) (∅ : gmap string string) kvs !! name
    = lastValue name kvs.
Proof.
  rewrite foldl_insert_last, lookup_empty. by destruct (lastValue name kvs).
Qed.

Lemma readHeaderBlock_eof lines kvs tail :
  Forall2 (fun l kv => isHeaderLine l /\ headerFields (lineText l) = inr kv) lines kvs ->
  LF ∉ tail ->
  readHeaderBlock (closing (wireLines lines ++ tail)) = Some (inl Return).
Proof.
  intros Hl Ht. unfold readHeaderBlock, closing.
  rewrite (readHeaders_lines _ _ lines kvs) by (done || (simpl; lia)).
  rewrite readHeaders_unfold by (simpl; lia).
  by rewrite ReadBytes_end.
Qed.

(** ** Splitting and trimming *)

Lemma bytes_str l : bytes (str l) = l.
Proof. apply list_ascii_of_string_of_list_ascii. Qed.

Lemma str_bytes s : str (bytes s) = s.
Proof. apply string_of_list_ascii_of_string. Qed.

Lemma splitOn_whole sep l : sep ∉ l -> splitOn sep l = [l].
Proof.
  induction l as [|a l IH]; simpl; [done|]. intros Hs.
  apply not_elem_of_cons in Hs as [Hne Hs].
  destruct (Ascii.eqb_spec a sep) as [->|_]; [done|]. by rewrite IH.
Qed.

Lemma splitOn_first sep pre rest :
  sep ∉ pre -> splitOn sep (pre ++ sep :: rest) = pre :: splitOn sep rest.
Proof.
  induction pre as [|a pre IH]; simpl; intros Hs.
  - by rewrite Ascii.eqb_refl.
  - apply not_elem_of_cons in Hs as [Hne Hs].
    destruct (Ascii.eqb_spec a sep) as [->|_]; [done|]. by rewrite IH.
Qed.

Lemma isSpace2_low a b : a < 128 -> isSpace2 a b = false.
Proof. intros Ha. unfold isSpace2. by destruct (Z.eqb_spec a 194); [lia|]. Qed.

Lemma isSpace3_low a b c : a < 128 -> isSpace3 a b c = false.
Proof.
  intros Ha. unfold isSpace3.
  destruct (Z.eqb_spec a 225); [lia|]. destruct (Z.eqb_spec a 226); [lia|].
  by destruct (Z.eqb_spec a 227); [lia|].
Qed.

Lemma isSpace2_low_last b c : c < 128 -> isSpace2 b c = false.
Proof.
  intros Hc. unfold isSpace2.
  destruct (Z.eqb_spec c 133); [lia|]. destruct (Z.eqb_spec c 160); [lia|].
  by rewrite andb_false_r.
Qed.

Lemma isSpace3_low_last a b c : c < 128 -> isSpace3 a b c = false.
Proof.
  intros Hc. unfold isSpace3.
  destruct (Z.eqb_spec c 128); [lia|]. destruct (Z.leb_spec 128 c); [lia|].
  destruct (Z.eqb_spec c 168); [lia|]. destruct (Z.eqb_spec c 169); [lia|].
  destruct (Z.eqb_spec c 175); [lia|]. destruct (Z.eqb_spec c 159); [lia|].
  by rewrite !andb_false_r.
Qed.

Lemma isSpace3_low_mid a b c : b < 128 -> isSpace3 a b c = false.
Proof.
  intros Hb. unfold isSpace3.
  destruct (Z.eqb_spec b 154); [lia|]. destruct (Z.eqb_spec b 128); [lia|].
  destruct (Z.eqb_spec b 129); [lia|].
  by rewrite !andb_false_r.
Qed.

Lemma TrimLeft_suffix l : exists pre, l = pre ++ TrimLeft l.
Proof.
  induction l as [l IH] using (induction_ltof1 _ (@length ascii)). unfold ltof in IH.
  destruct l as [|a [|b [|c r]]]; simpl.
  - by exists [].
  - destruct (isSpace1 (code a)); [by exists [a]|by exists []].
  - destruct (isSpace1 (code a)).
    { destruct (IH [b]) as [pre Hp]; [simpl; lia|]. exists (a :: pre). by rewrite Hp at 1. }
    destruct (isSpace2 (code a) (code b)); [by exists [a; b]|by exists []].
  - destruct (isSpace1 (code a)).
    { destruct (IH (b :: c :: r)) as [pre Hp]; [simpl; lia|].
      exists (a :: pre). by rewrite Hp at 1. }
    destruct (isSpace2 (code a) (code b)).
    { destruct (IH (c :: r)) as [pre Hp]; [simpl; lia|].
      exists (a :: b :: pre). by rewrite Hp at 1. }
    destruct (isSpace3 (code a) (code b) (code c)); [|by exists []].
    destruct (IH r) as [pre Hp]; [simpl; lia|].
    exists (a :: b :: c :: pre). by rewrite Hp at 1.
Qed.

Lemma TrimRightRev_suffix l : exists pre, l = pre ++ TrimRightRev l.
Proof.
  induction l as [l IH] using (induction_ltof1 _ (@length ascii)). unfold ltof in IH.
  destruct l as [|a [|b [|c r]]]; simpl.
  - by exists [].
  - destruct (isSpace1 (code a)); [by exists [a]|by exists []].
  - destruct (isSpace1 (code a)).
    { destruct (IH [b]) as [pre Hp]; [simpl; lia|]. exists (a :: pre). by rewrite Hp at 1. }
    destruct (isSpace2 (code b) (code a)); [by exists [a; b]|by exists []].
  - destruct (isSpace1 (code a)).
    { destruct (IH (b :: c :: r)) as [pre Hp]; [simpl; lia|].
      exists (a :: pre). by rewrite Hp at 1. }
    destruct (isSpace2 (code b) (code a)).
    { destruct (IH (c :: r)) as [pre Hp]; [simpl; lia|].
      exists (a :: b :: pre). by rewrite Hp at 1. }
    destruct (isSpace3 (code c) (code b) (code a)); [|by exists []].
    destruct (IH r) as [pre Hp]; [simpl; lia|].
    exists (a :: b :: c :: pre). by rewrite Hp at 1.
Qed.

(** Trimming only removes bytes: what is left is a segment of the text. *)
Lemma bytes_TrimSpace_segment l :
  exists pre post, l = pre ++ bytes_TrimSpace l ++ post.
Proof.
  unfold bytes_TrimSpace, TrimRight.
  destruct (TrimLeft_suffix l) as [pre Hpre].
  destruct (TrimRightRev_suffix (rev (TrimLeft l))) as [post Hpost].
  exists pre, (rev post). rewrite Hpre at 1. f_equal.
  rewrite <- rev_app_distr, <- Hpost. by rewrite rev_involutive.
Qed.

Lemma bytes_TrimSpace_elem a l : a ∈ bytes_TrimSpace l -> a ∈ l.
Proof.
  destruct (bytes_TrimSpace_segment l) as (pre & post & Hl). intros Ha.
  rewrite Hl. rewrite !elem_of_app. auto.
Qed.

(** Trimming removes white space only: an ASCII byte that is no white space
    stays where it is. *)
Lemma TrimLeft_keeps a l : plain a -> a ∈ l -> a ∈ TrimLeft l.
Proof.
  intros [Ha Hs].
  induction l as [l IH] using (induction_ltof1 _ (@length ascii)). unfold ltof in IH.
  intros Hin. destruct l as [|x [|y [|z r]]]; simpl; [done| | |].
  - destruct (isSpace1 (code x)) eqn:Hx; [|done].
    apply list_elem_of_singleton in Hin as ->. congruence.
  - destruct (isSpace1 (code x)) eqn:Hx.
    { apply (IH [y]); [simpl; lia|]. apply elem_of_cons in Hin as [->|Hin]; [congruence|done]. }
    destruct (isSpace2 (code x) (code y)) eqn:Hxy; [|done].
    apply elem_of_cons in Hin as [->|Hin]; [by rewrite isSpace2_low in Hxy|].
    apply list_elem_of_singleton in Hin as ->. by rewrite isSpace2_low_last in Hxy.
  - destruct (isSpace1 (code x)) eqn:Hx.
    { apply (IH (y :: z :: r)); [simpl; lia|]. apply elem_of_cons in Hin as [->|Hin]; [congruence|done]. }
    destruct (isSpace2 (code x) (code y)) eqn:Hxy.
    { apply (IH (z :: r)); [simpl; lia|].
      apply elem_of_cons in Hin as [->|Hin]; [by rewrite isSpace2_low in Hxy|].
      apply elem_of_cons in Hin as [->|Hin]; [by rewrite isSpace2_low_last in Hxy|done]. }
    destruct (isSpace3 (code x) (code y) (code z)) eqn:Hxyz; [|done].
    apply (IH r); [simpl; lia|].
    apply elem_of_cons in Hin as [->|Hin]; [by rewrite isSpace3_low in Hxyz|].
    apply elem_of_cons in Hin as [->|Hin]; [by rewrite isSpace3_low_mid in Hxyz|].
    apply elem_of_cons in Hin as [->|Hin]; [by rewrite isSpace3_low_last in Hxyz|done].
Qed.

Lemma TrimRightRev_keeps a l : plain a -> a ∈ l -> a ∈ TrimRightRev l.
Proof.
  intros [Ha Hs].
  induction l as [l IH] using (induction_ltof1 _ (@length ascii)). unfold ltof in IH.
  intros Hin. destruct l as [|x [|y [|z r]]]; simpl; [done| | |].
  - destruct (isSpace1 (code x)) eqn:Hx; [|done].
    apply list_elem_of_singleton in Hin as ->. congruence.
  - destruct (isSpace1 (code x)) eqn:Hx.
    { apply (IH [y]); [simpl; lia|]. apply elem_of_cons in Hin as [->|Hin]; [congruence|done]. }
    destruct (isSpace2 (code y) (code x)) eqn:Hxy; [|done].
    apply elem_of_cons in Hin as [->|Hin]; [by rewrite isSpace2_low_last in Hxy|].
    apply list_elem_of_singleton in Hin as ->. by rewrite isSpace2_low in Hxy.
  - destruct (isSpace1 (code x)) eqn:Hx.
    { apply (IH (y :: z :: r)); [simpl; lia|]. apply elem_of_cons in Hin as [->|Hin]; [congruence|done]. }
    destruct (isSpace2 (code y) (code x)) eqn:Hxy.
    { apply (IH (z :: r)); [simpl; lia|].
      apply elem_of_cons in Hin as [->|Hin]; [by rewrite isSpace2_low_last in Hxy|].
      apply elem_of_cons in Hin as [->|Hin]; [by rewrite isSpace2_low in Hxy|done]. }
    destruct (isSpace3 (code z) (code y) (code x)) eqn:Hxyz; [|done].
    apply (IH r); [simpl; lia|].
    apply elem_of_cons in Hin as [->|Hin]; [by rewrite isSpace3_low_last in Hxyz|].
    apply elem_of_cons in Hin as [->|Hin]; [by rewrite isSpace3_low_mid in Hxyz|].
    apply elem_of_cons in Hin as [->|Hin]; [by rewrite isSpace3_low in Hxyz|done].
Qed.

Lemma bytes_TrimSpace_keeps a l : plain a -> a ∈ l -> a ∈ bytes_TrimSpace l.
Proof.
  intros Ha Hin. unfold bytes_TrimSpace, TrimRight.
  rewrite list_elem_of_In, <- in_rev, <- list_elem_of_In.
  apply TrimRightRev_keeps; [done|].
  rewrite list_elem_of_In, <- in_rev, <- list_elem_of_In.
  by apply TrimLeft_keeps.
Qed.

Lemma colon_plain : plain colon.
Proof. split; reflexivity. Qed.

(** ** Header lines *)

Lemma strings_Split_str l sep : strings_Split (str l) sep = map str (splitOn sep l).
Proof. unfold strings_Split. by rewrite bytes_str. Qed.

Lemma strings_TrimSpace_str l : strings_TrimSpace (str l) = str (bytes_TrimSpace l).
Proof. unfold strings_TrimSpace. by rewrite bytes_str. Qed.

Lemma headerFields_no_colon line :
  colon ∉ bytes line -> headerFields line = inl (PanicIndex 1 1).
Proof.
  intros Hc. unfold headerFields, strings_Split. by rewrite splitOn_whole.
Qed.

Lemma headerFields_colon name value :
  colon ∉ name -> colon ∉ value ->
  headerFields (str (name ++ colon :: value))
    = inr (str (bytes_TrimSpace name), str (bytes_TrimSpace value)).
Proof.
  intros Hn Hv. unfold headerFields. rewrite strings_Split_str.
  rewrite splitOn_first, splitOn_whole by done. simpl.
  by rewrite !strings_TrimSpace_str.
Qed.

(** C4, what the code does.  Line 100 splits the line at every colon and
    line 101 stores the second field under the first, with no look at how
    many fields there are.  On a line with one colon the value is the whole
    text after the colon, trimmed, as the claim has it.  On a line whose
    value holds a colon the value stored stops at that colon: what follows
    it is lost, and the value differs from the remainder after the first
    colon that the claim requires. *)
Theorem header_value_stops_at_the_second_colon name value more :
  colon ∉ name -> colon ∉ value ->
  headerFields (str (name ++ colon :: value))
    = inr (str (bytes_TrimSpace name), str (bytes_TrimSpace value))
  /\ headerFields (str (name ++ colon :: value ++ colon :: more))
    = inr (str (bytes_TrimSpace name), str (bytes_TrimSpace value))
  /\ headerFields (str (name ++ colon :: value ++ colon :: more))
    <> inr (str (bytes_TrimSpace name),
            str (bytes_TrimSpace (value ++ colon :: more))).
Proof.
  intros Hn Hv.
  assert (headerFields (str (name ++ colon :: value ++ colon :: more))
          = inr (str (bytes_TrimSpace name), str (bytes_TrimSpace value))) as Hcut.
  { unfold headerFields. rewrite strings_Split_str.
    rewrite !splitOn_first by done. simpl.
    by rewrite !strings_TrimSpace_str. }
  split_and!; [by apply headerFields_colon|done|].
  rewrite Hcut. intros [= Heq]. apply (f_equal bytes) in Heq.
  rewrite !bytes_str in Heq.
  assert (colon ∈ bytes_TrimSpace value) as Hin%bytes_TrimSpace_elem; [|done].
  rewrite Heq. apply bytes_TrimSpace_keeps; [apply colon_plain|].
  apply elem_of_app. right. left.
Qed.

Lemma header_value_stops_at_the_second_colon_witness :
  headerFields "Foo: a" = inr ("Foo", "a")
  /\ headerFields "Foo: a:b" = inr ("Foo", "a")
  /\ headerFields "Foo: a:b" <> inr ("Foo", "a:b").
Proof.
  apply (header_value_stops_at_the_second_colon (bytes "Foo") (bytes " a") (bytes "b"));
    compute_done.
Defined.

(** The same on the header that matters: the length is what stands before
    the second colon. *)
Example content_length_with_a_colon :
  readFrame (U := json.UnmarshalResponse)
    (closing (bytes "Content-Length: 4:7" ++ [CR; LF; CR; LF] ++ bytes "nullXYZ"))
  = Some (Decoded zeroResponse (closing (bytes "XYZ"))).
Proof. reflexivity. Qed.

Section HeaderLinePanic.
Context {U : Unmarshal Response}.

Lemma lineText_no_colon l : colon ∉ l -> colon ∉ bytes (lineText l).
Proof.
  intros Hc. unfold lineText. rewrite bytes_str.
  intros Hin%bytes_TrimSpace_elem. apply elem_of_app in Hin as [?|Hin]; [done|].
  apply list_elem_of_singleton in Hin. discriminate.
Qed.

(** C5, what the code does.  On a header line without a colon the split
    has one field, so [parts[1]] of line 101 is out of range: the reader
    goroutine panics, whatever the process was doing and whatever follows
    on the stream. *)
Theorem header_line_without_colon_panics p l rest fin :
  isHeaderLine l -> colon ∉ l ->
  listen p {| pending := l ++ LF :: rest; final := fin |}
    = Some (Panic (PanicIndex 1 1), p).
Proof.
  intros Hl Hc. rewrite listen_unfold. unfold readFrame, readHeaderBlock.
  rewrite readHeaders_header_line by (done || simpl; lia).
  by rewrite headerFields_no_colon by by apply lineText_no_colon.
Qed.

End HeaderLinePanic.

Lemma header_line_without_colon_panics_witness :
  listen (U := json.UnmarshalResponse) start (closing (bytes "Foo" ++ [CR; LF; CR; LF]))
    = Some (Panic (PanicIndex 1 1), start).
Proof.
  apply (header_line_without_colon_panics (U := json.UnmarshalResponse)
           start (bytes "Foo" ++ [CR]) [CR; LF] EOF).
  - split; [compute_done|vm_compute; discriminate].
  - compute_done.
Defined.

(** ** Frames *)

Section Frames.
Context {U : Unmarshal Response}.

Lemma readFrame_block lines kvs blank rest fin :
  Forall2 (fun l kv => isHeaderLine l /\ headerFields (lineText l) = inr kv) lines kvs ->
  isBlankLine blank ->
  readFrame {| pending := wireLines lines ++ blank ++ LF :: rest; final := fin |}
    = Some (readBody (default "" (lastValue "Content-Length" kvs))
              {| pending := rest; final := fin |}).
Proof.
  intros Hl Hb. unfold readFrame.
  by rewrite (readHeaderBlock_lines lines kvs), headers_lookup.
Qed.

Lemma Atoi_nonempty value n : strconv_Atoi value = inr n -> String.eqb value "" = false.
Proof. by destruct value. Qed.

Lemma makeslice_ok n : 0 <= n <= maxAlloc -> makeslice n = Some (Z.to_nat n).
Proof.
  intros [H0 H1]. unfold makeslice.
  destruct (Z.ltb_spec n 0); [lia|]. by destruct (Z.ltb_spec maxAlloc n); [lia|].
Qed.

Lemma readBody_short value n got :
  strconv_Atoi value = inr n -> n <= maxAlloc -> len got < n ->
  readBody value (closing got)
    = Stopped (match got with
               | [] => Return
               | _ :: _ => Fatal (FatalReadBody ErrUnexpectedEOF)
               end).
Proof.
  unfold len. intros Ha Hm Hg. unfold readBody.
  rewrite (Atoi_nonempty _ _ Ha), Ha, makeslice_ok by lia.
  unfold ReadFull. simpl.
  destruct (Nat.eqb_spec (Z.to_nat n) 0); [lia|].
  destruct (Nat.leb_spec (Z.to_nat n) (length got)); [lia|]. by destruct got.
Qed.

(** C7, as the code has it.  [lines] are the header lines read so far in
    the current block, none when the loop stands between two frames or the
    stream is empty.  The end of the stream while a header line is awaited
    makes [listen] return with the process as it was: nothing is logged.
    After a header block that promises [n] bytes, [n] within what [make]
    allocates, the end of the stream with fewer bytes is fatal ([failed to
    read body]) when at least one byte of the body arrived, and makes
    [listen] return just as silently when none did. *)
Theorem end_of_stream p lines kvs :
  Forall2 (fun l kv => isHeaderLine l /\ headerFields (lineText l) = inr kv) lines kvs ->
  (forall tail, LF ∉ tail ->
     listen p (closing (wireLines lines ++ tail)) = Some (Return, p))
  /\ (forall blank value n got,
        isBlankLine blank ->
        lastValue "Content-Length" kvs = Some value ->
        strconv_Atoi value = inr n -> n <= maxAlloc -> len got < n ->
        listen p (closing (wireLines lines ++ blank ++ LF :: got))
        = Some (match got with
                | [] => Return
                | _ :: _ => Fatal (FatalReadBody ErrUnexpectedEOF)
                end, p)).
Proof.
  intros Hl. split.
  - intros tail Ht. rewrite listen_unfold. unfold readFrame.
    by rewrite (readHeaderBlock_eof lines kvs).
  - intros blank value n got Hb Hv Ha Hm Hg. rewrite listen_unfold. unfold closing.
    rewrite (readFrame_block lines kvs), Hv by done. simpl.
    fold (closing got). by rewrite (readBody_short value n).
Qed.

End Frames.

Section ContentLength.
Context {U : Unmarshal Response}.

Lemma readBody_exact value n body rest fin :
  strconv_Atoi value = inr n -> 0 <= n <= maxAlloc -> len body = n ->
  readBody value {| pending := body ++ rest; final := fin |}
    = match json_Unmarshal body with
      | inl _ => Stopped (Fatal FatalUnmarshal)
      | inr resp => Decoded resp {| pending := rest; final := fin |}
      end.
Proof.
  unfold len. intros Ha Hn Hb. unfold readBody.
  rewrite (Atoi_nonempty _ _ Ha), Ha, makeslice_ok by lia.
  replace (Z.to_nat n) with (length body) by lia.
  erewrite ReadFull_enough by done.
  destruct (json_Unmarshal body); [done|].
  destruct (Nat.eqb_spec (length body) 0) as [H0|_]; [|done].
  apply nil_length_inv in H0 as ->. done.
Qed.

(** C6, as the code has it.  [value] is what the header block leaves under
    [Content-Length].  An empty value counts as no header: a warning, and
    the next frame.  Otherwise the value is read by [strconv.Atoi], a signed
    decimal: the frame is fatal with [bad Content-Length] exactly when
    [Atoi] rejects the value.  When the value is a length [n] that can be
    allocated, exactly the next [n] bytes are the body, whatever they are,
    and they go to the JSON decoder. *)
Theorem content_length_value lines kvs blank value rest fin :
  Forall2 (fun l kv => isHeaderLine l /\ headerFields (lineText l) = inr kv) lines kvs ->
  isBlankLine blank ->
  lastValue "Content-Length" kvs = Some value ->
  let r := {| pending := wireLines lines ++ blank ++ LF :: rest; final := fin |} in
  (value = "" -> readFrame r = Some (NoLength {| pending := rest; final := fin |}))
  /\ (value <> "" -> forall e,
        readFrame r = Some (Stopped (Fatal (FatalContentLength e)))
        <-> strconv_Atoi value = inl e)
  /\ (forall n body rest',
        strconv_Atoi value = inr n -> 0 <= n <= maxAlloc ->
        rest = body ++ rest' -> len body = n ->
        readFrame r
        = Some (match json_Unmarshal body with
                | inl _ => Stopped (Fatal FatalUnmarshal)
                | inr resp => Decoded resp {| pending := rest'; final := fin |}
                end)).
Proof.
  intros Hl Hb Hv r. unfold r. rewrite (readFrame_block lines kvs), Hv by done.
  simpl. split_and!.
  - by intros ->.
  - intros Hne e. unfold readBody.
    destruct (String.eqb_spec value "") as [|_]; [done|].
    destruct (strconv_Atoi value) as [e'|n].
    { split; intros [= ->]; done. }
    split; [|done].
    destruct (makeslice n); [|done].
    destruct (ReadFull _ _) as [[]|[body r2]]; [done..|].
    by destruct (json_Unmarshal body).
  - intros n body rest' Ha Hn -> Hlen. by rewrite (readBody_exact value n).
Qed.

(** C10.  In a header block the value kept for a name is that of the last
    line carrying the name: every line overwrites the entry of its name in
    the map of headers.  [kvs] are the names and values of the lines in the
    order of the block.  So the frame is read with the last [Content-Length]
    of the block: no earlier one has any effect on what [listen] does with
    the frame, and when the last one is a length [n] that can be allocated,
    exactly the next [n] bytes are taken as the body and decoded. *)
Theorem duplicate_header_last_wins lines kvs blank rest fin :
  Forall2 (fun l kv => isHeaderLine l /\ headerFields (lineText l) = inr kv) lines kvs ->
  isBlankLine blank ->
  let r := {| pending := wireLines lines ++ blank ++ LF :: rest; final := fin |} in
  (exists headers,
     readHeaderBlock r = Some (inr (headers, {| pending := rest; final := fin |}))
     /\ forall name, headers !! name = lastValue name kvs)
  /\ (forall lines' kvs' blank',
        Forall2 (fun l kv => isHeaderLine l /\ headerFields (lineText l) = inr kv)
          lines' kvs' ->
        isBlankLine blank' ->
        lastValue "Content-Length" kvs' = lastValue "Content-Length" kvs ->
        readFrame {| pending := wireLines lines' ++ blank' ++ LF :: rest; final := fin |}
        = readFrame r)
  /\ (forall value n body rest',
        lastValue "Content-Length" kvs = Some value ->
        strconv_Atoi value = inr n -> 0 <= n <= maxAlloc ->
        rest = body ++ rest' -> len body = n ->
        readFrame r
        = Some (match json_Unmarshal body with
                | inl _ => Stopped (Fatal FatalUnmarshal)
                | inr resp => Decoded resp {| pending := rest'; final := fin |}
                end)).
Proof.
  intros Hl Hb r. unfold r. split_and!.
  - eexists. split; [by apply readHeaderBlock_lines|apply headers_lookup].
  - intros lines' kvs' blank' Hl' Hb' Hv.
    by rewrite (readFrame_block lines' kvs'), (readFrame_block lines kvs), Hv.
  - intros value n body rest' Hv Ha Hn -> Hlen.
    rewrite (readFrame_block lines kvs), Hv by done. simpl.
    by rewrite (readBody_exact value n).
Qed.

End ContentLength.

Lemma duplicate_header_last_wins_witness :
  let two := [bytes "Content-Length: 2" ++ [CR]; bytes "Content-Length: 4" ++ [CR]] in
  let r := closing (wireLines two ++ [CR] ++ LF :: bytes "nullXYZ") in
  (exists headers,
     readHeaderBlock r = Some (inr (headers, closing (bytes "nullXYZ")))
     /\ headers !! "Content-Length" = Some "4")
  /\ readFrame (U := json.UnmarshalResponse)
       (closing (wireLines [bytes "Content-Length: 4" ++ [CR]]
                 ++ [CR] ++ LF :: bytes "nullXYZ"))
     = readFrame (U := json.UnmarshalResponse) r
  /\ readFrame (U := json.UnmarshalResponse) r
     = Some (Decoded zeroResponse (closing (bytes "XYZ"))).
Proof.
  intros two r.
  assert (isHeaderLine (bytes "Content-Length: 2" ++ [CR])
          /\ headerFields (lineText (bytes "Content-Length: 2" ++ [CR]))
             = inr ("Content-Length", "2")) as H2.
  { split; [split; [compute_done|vm_compute; discriminate]|reflexivity]. }
  assert (isHeaderLine (bytes "Content-Length: 4" ++ [CR])
          /\ headerFields (lineText (bytes "Content-Length: 4" ++ [CR]))
             = inr ("Content-Length", "4")) as H4.
  { split; [split; [compute_done|vm_compute; discriminate]|reflexivity]. }
  assert (isBlankLine [CR]) as Hb by (split; [compute_done|reflexivity]).
  destruct (duplicate_header_last_wins (U := json.UnmarshalResponse)
              two [("Content-Length", "2"); ("Content-Length", "4")]
              [CR] (bytes "nullXYZ") EOF)
    as ((headers & Hblock & Hlookup) & Hsame & Hbody);
    [constructor; [exact H2|constructor; [exact H4|constructor]]|exact Hb|].
  split_and!.
  - exists headers. split; [exact Hblock|]. by rewrite Hlookup.
  - apply (Hsame [bytes "Content-Length: 4" ++ [CR]] [("Content-Length", "4")] [CR]);
      [constructor; [exact H4|constructor]|exact Hb|reflexivity].
  - apply (Hbody "4" 4 (bytes "null") (bytes "XYZ")); try reflexivity.
    split; vm_compute; discriminate.
Defined.

Lemma end_of_stream_witness :
  listen (U := json.UnmarshalResponse) start (closing []) = Some (Return, start)
  /\ listen (U := json.UnmarshalResponse) start
       (closing (wireLines [bytes "Content-Length: 5" ++ [CR]] ++ bytes "Foo: b"))
     = Some (Return, start)
  /\ listen (U := json.UnmarshalResponse) start
       (closing (wireLines [bytes "Content-Length: 5" ++ [CR]] ++ [CR] ++ LF :: bytes "abc"))
     = Some (Fatal (FatalReadBody ErrUnexpectedEOF), start)
  /\ listen (U := json.UnmarshalResponse) start
       (closing (wireLines [bytes "Content-Length: 5" ++ [CR]] ++ [CR] ++ LF :: []))
     = Some (Return, start).
Proof.
  destruct (end_of_stream (U := json.UnmarshalResponse) start [] [])
    as [Hempty _]; [constructor|].
  destruct (end_of_stream (U := json.UnmarshalResponse) start
              [bytes "Content-Length: 5" ++ [CR]] [("Content-Length", "5")])
    as [Hline Hbody].
  { constructor; [|constructor].
    split; [split; [compute_done|vm_compute; discriminate]|reflexivity]. }
  assert (isBlankLine [CR]) as Hb by (split; [compute_done|reflexivity]).
  split_and!.
  - apply (Hempty []). compute_done.
  - apply (Hline (bytes "Foo: b")). compute_done.
  - apply (Hbody [CR] "5" 5 (bytes "abc") Hb eq_refl eq_refl);
      [vm_compute; discriminate|reflexivity].
  - apply (Hbody [CR] "5" 5 [] Hb eq_refl eq_refl);
      [vm_compute; discriminate|reflexivity].
Defined.

(** C7, the claim as written fails: when the stream ends right after a
    header block that promises five bytes, [listen] returns as on a clean
    shutdown; no error is reported and nothing is logged. *)
Lemma truncation_before_the_body_is_silent :
  listen (U := json.UnmarshalResponse) start
    (closing (bytes "Content-Length: 5" ++ [CR; LF; CR; LF]))
  = Some (Return, start)
  /\ listen (U := json.UnmarshalResponse) start (closing [])
     = Some (Return, start).
Proof. split; reflexivity. Qed.

(** The scenario of the specification: five bytes promised, three arrive. *)
Example truncation_after_three_bytes :
  listen (U := json.UnmarshalResponse) start
    (closing (bytes "Content-Length: 5" ++ [CR; LF; CR; LF] ++ bytes "abc"))
  = Some (Fatal (FatalReadBody ErrUnexpectedEOF), start).
Proof. reflexivity. Qed.

Lemma content_length_value_witness :
  readFrame (U := json.UnmarshalResponse)
    {| pending := wireLines [bytes "Content-Length: 4" ++ [CR]] ++ [CR] ++ LF :: bytes "nullXYZ";
       final := EOF |}
  = Some (Decoded zeroResponse {| pending := bytes "XYZ"; final := EOF |}).
Proof.
  assert (Forall2 (fun l kv => isHeaderLine l /\ headerFields (lineText l) = inr kv)
            [bytes "Content-Length: 4" ++ [CR]] [("Content-Length", "4")]) as Hl.
  { constructor; [|constructor].
    split; [split; [compute_done|vm_compute; discriminate]|reflexivity]. }
  assert (isBlankLine [CR]) as Hb by (split; [compute_done|reflexivity]).
  destruct (content_length_value (U := json.UnmarshalResponse)
              [bytes "Content-Length: 4" ++ [CR]] [("Content-Length", "4")]
              [CR] "4" (bytes "nullXYZ") EOF Hl Hb eq_refl) as (_ & _ & H).
  apply (H 4 (bytes "null") (bytes "XYZ")).
  - reflexivity.
  - split; vm_compute; discriminate.
  - reflexivity.
  - reflexivity.
Defined.

(** C6, the claim as written fails: a [Content-Length] header whose value
    is empty is not numeric, yet the frame is not fatal; it is skipped with
    the warning of a missing header and [listen] goes on. *)
Lemma empty_content_length_is_not_fatal :
  strconv_Atoi "" = inl ErrSyntax
  /\ readFrame (U := json.UnmarshalResponse)
       (closing (bytes "Content-Length:" ++ [CR; LF; CR; LF]))
     = Some (NoLength (closing []))
  /\ listen (U := json.UnmarshalResponse) start
       (closing (bytes "Content-Length:" ++ [CR; LF; CR; LF]))
     = Some (Return, log LogNoContentLength start).
Proof. split_and!; reflexivity. Qed.

(** A negative length passes [Atoi] and makes [make] panic. *)
Example negative_content_length_panics :
  listen (U := json.UnmarshalResponse) start
    (closing (bytes "Content-Length: -5" ++ [CR; LF; CR; LF] ++ bytes "abcde"))
  = Some (Panic PanicMakeslice, start).
Proof. reflexivity. Qed.

(** A signed length is read as [Atoi] reads it. *)
Example plus_content_length :
  readFrame (U := json.UnmarshalResponse)
    (closing (bytes "Content-Length: +4" ++ [CR; LF; CR; LF] ++ bytes "null"))
  = Some (Decoded zeroResponse (closing [])).
Proof. reflexivity. Qed.

(** ** Dispatch *)

Section Dispatch.
Context {U : Unmarshal Response}.

Lemma recv_send ch resp ops : recv ch (ChSend ch resp :: ops) = Some resp.
Proof. simpl. by rewrite decide_True. Qed.

(** C2, as the code has it.  A decoded response is sent once on the channel
    registered under its [request_seq], the channel is closed and the entry
    deleted.  Without such an entry the response is dropped and the process
    is left exactly as it was: nothing is logged.  Entries under other
    numbers are never touched. *)
Theorem response_resolution p r resp r2 :
  readFrame r = Some (Decoded resp r2) ->
  exists p',
    listen p r = listen p' r2
    /\ logged p' = logged p
    /\ responseChans p' !! RequestSeq resp = None
    /\ (forall seq, seq <> RequestSeq resp ->
          responseChans p' !! seq = responseChans p !! seq)
    /\ match responseChans p !! RequestSeq resp with
       | Some ch => chanOps p' = chanOps p ++ [ChSend ch resp; ChClose ch]
       | None => p' = p
       end.
Proof.
  intros Hr. exists (dispatch resp p). rewrite listen_unfold, Hr.
  unfold dispatch. destruct (responseChans p !! RequestSeq resp) as [ch|] eqn:E; simpl.
  - split_and!; [done|done|apply lookup_delete_eq| |done].
    intros seq Hne. by rewrite lookup_delete_ne.
  - by split_and!.
Qed.

(** C8, as the code has it.  The kind of a decoded message is never looked
    at: whatever [type] says, the message goes to the channel registered
    under its [request_seq], and the waiter receives it. *)
Theorem delivery_ignores_the_kind p r resp r2 ch kind :
  readFrame r = Some (Decoded resp r2) ->
  Type_ (respMessage resp) = kind ->
  responseChans p !! RequestSeq resp = Some ch ->
  exists p',
    listen p r = listen p' r2
    /\ chanOps p' = chanOps p ++ [ChSend ch resp; ChClose ch]
    /\ recv ch (drop (length (chanOps p)) (chanOps p')) = Some resp.
Proof.
  intros Hr _ Hch. exists (dispatch resp p). rewrite listen_unfold, Hr.
  unfold dispatch. rewrite Hch. simpl. split_and!; [done..|].
  rewrite drop_app_length. apply recv_send.
Qed.

End Dispatch.

Lemma response_resolution_witness :
  exists p',
    listen (U := json.UnmarshalResponse) awaiting (closing (frame reply ++ frame unsolicited))
    = listen (U := json.UnmarshalResponse) p' (closing (frame unsolicited))
    /\ logged p' = logged awaiting
    /\ responseChans p' !! 1 = None
    /\ (forall seq, seq <> 1 -> responseChans p' !! seq = responseChans awaiting !! seq)
    /\ chanOps p' = [ChSend 0%nat decodedReply; ChClose 0%nat].
Proof.
  apply (response_resolution (U := json.UnmarshalResponse) awaiting
           (closing (frame reply ++ frame unsolicited)) decodedReply
           (closing (frame unsolicited))).
  vm_compute. reflexivity.
Defined.

(** C2, the claim as written fails: a response under a number nobody waits
    for is dropped without a trace; the log stays empty and the process is
    as before. *)
Lemma unmatched_response_is_not_logged :
  responseChans awaiting !! 42 = None
  /\ exists p',
       listen (U := json.UnmarshalResponse) awaiting (closing (frame unsolicited))
       = Some (Return, p')
       /\ logged p' = [] /\ chanOps p' = [] /\ p' = awaiting.
Proof. split; [reflexivity|]. exists awaiting. split_and!; reflexivity. Qed.

Lemma delivery_ignores_the_kind_witness :
  exists p',
    listen (U := json.UnmarshalResponse) awaiting (closing (frame strayEvent))
    = listen (U := json.UnmarshalResponse) p' (closing [])
    /\ chanOps p' = [ChSend 0%nat decodedEvent; ChClose 0%nat]
    /\ recv 0%nat (chanOps p') = Some decodedEvent.
Proof.
  apply (delivery_ignores_the_kind (U := json.UnmarshalResponse) awaiting
           (closing (frame strayEvent)) decodedEvent (closing []) 0%nat "event").
  - vm_compute. reflexivity.
  - reflexivity.
  - reflexivity.
Defined.

(** C8, the claim as written fails: an event that carries the number of a
    pending request is sent to the waiter of that request, and [initialize]
    takes it for its response. *)
Lemma event_is_delivered_to_the_waiter :
  Type_ (respMessage decodedEvent) = "event"
  /\ responseChans awaiting !! 1 = Some 0%nat
  /\ exists p',
       listen (U := json.UnmarshalResponse) awaiting (closing (frame strayEvent))
       = Some (Return, p')
       /\ chanOps p' = [ChSend 0%nat decodedEvent; ChClose 0%nat]
       /\ responseChans p' !! 1 = None.
Proof.
  split_and!; [reflexivity..|]. eexists. split_and!; [vm_compute; reflexivity|..];
    reflexivity.
Qed.

(** ** The rounds of [listen] and the waiter *)

Section Await.
Context {U : Unmarshal Response}.

Lemma listenLoop_rounds f p r :
  (length (pending r) < f)%nat ->
  exists evs e,
    roundsLoop f r = Some (evs, e) /\ listenLoop f p r = Some (e, foldl round p evs).
Proof.
  revert p r. induction f as [|f IH]; intros p r Hf; [lia|]. simpl.
  destruct (readFrame_total r) as [d E]. rewrite E.
  apply readFrame_shorter in E. destruct d as [r1|e|resp r2].
  - destruct (IH (log LogNoContentLength p) r1) as (evs & e & -> & ->); [lia|].
    by exists (None :: evs), e.
  - by exists [], e.
  - destruct (IH (dispatch resp p) r2) as (evs & e & -> & ->); [lia|].
    by exists (Some resp :: evs), e.
Qed.

(** How [listen] ends does not depend on the process, and what it does to
    the process is what its rounds do, one after the other. *)
Lemma listen_rounds p r :
  exists evs e, rounds r = Some (evs, e) /\ listen p r = Some (e, foldl round p evs).
Proof. apply listenLoop_rounds. lia. Qed.

Lemma round_chanOps p ev :
  exists new, chanOps (round p ev) = chanOps p ++ new.
Proof.
  destruct ev as [resp|]; simpl.
  - unfold dispatch. destruct (responseChans p !! RequestSeq resp); simpl; eauto.
    exists []. by rewrite app_nil_r.
  - exists []. by rewrite app_nil_r.
Qed.

Lemma rounds_chanOps evs p :
  exists new, chanOps (foldl round p evs) = chanOps p ++ new.
Proof.
  revert p. induction evs as [|ev evs IH]; intros p; simpl.
  - exists []. by rewrite app_nil_r.
  - destruct (IH (round p ev)) as [new ->].
    destruct (round_chanOps p ev) as [new' ->].
    exists (new' ++ new). by rewrite app_assoc.
Qed.

Lemma rounds_recv evs p seq ch :
  waits p seq ch ->
  recv ch (drop (length (chanOps p)) (chanOps (foldl round p evs)))
    = firstAnswer seq evs.
Proof.
  unfold firstAnswer. revert p.
  induction evs as [|[resp|] evs IH]; intros p [Hs Ho]; simpl.
  - by rewrite drop_all.
  - destruct (rounds_chanOps evs (dispatch resp p)) as [new Hnew].
    specialize (IH (dispatch resp p)). rewrite Hnew in *.
    rewrite drop_app_length in IH. revert Hnew IH. unfold dispatch.
    destruct (decide (RequestSeq resp = seq)) as [<-|Hne].
    + rewrite Hs. simpl. intros _ _. rewrite filter_cons_True by done.
      rewrite <- app_assoc, drop_app_length. apply recv_send.
    + rewrite filter_cons_False by done.
      destruct (responseChans p !! RequestSeq resp) as [c|] eqn:Ec; simpl.
      * intros _ IH. rewrite <- app_assoc, drop_app_length. simpl.
        assert (c <> ch) as Hc by (intros ->; by apply Hne, Ho).
        rewrite !decide_False by done. apply IH. split; simpl.
        -- by rewrite lookup_delete_ne.
        -- intros k Hk. apply Ho.
           destruct (decide (RequestSeq resp = k)) as [<-|Hk'].
           ++ by rewrite lookup_delete_eq in Hk.
           ++ by rewrite lookup_delete_ne in Hk.
      * intros _ IH. rewrite drop_app_length. by apply IH.
  - destruct (rounds_chanOps evs (log LogNoContentLength p)) as [new Hnew].
    specialize (IH (log LogNoContentLength p)). rewrite Hnew in *.
    simpl in *. rewrite drop_app_length in *. by apply IH.
Qed.

End Await.

(** ** The handshake *)

Section Handshake.
Context {M : Marshal Request} {U : Unmarshal Response} {UC : Unmarshal Capabilities}.

Lemma sendMessage_responseChans {A} {MA : Marshal A} (msg : A) p :
  responseChans (sendMessage msg p) = responseChans p.
Proof. unfold sendMessage. by destruct (json_Marshal msg). Qed.

Lemma initializeSend_waits p :
  (forall k c, responseChans p !! k = Some c -> (c < chans p)%nat) ->
  let '(req, ch, p1) := initializeSend p in
  Seq (reqMessage req) = wrap64 (seqCounter p + 1)
  /\ waits p1 (wrap64 (seqCounter p + 1)) ch.
Proof.
  intros Hreg. unfold initializeSend. simpl. split; [done|].
  unfold waits. rewrite sendMessage_responseChans. simpl. split.
  - apply lookup_insert_eq.
  - intros k Hk. destruct (decide (wrap64 (seqCounter p + 1) = k)) as [|Hne]; [done|].
    rewrite lookup_insert_ne in Hk by done. apply Hreg in Hk. lia.
Qed.

(** C3, as the code has it.  The receive of line 153 ends in one way only:
    by the first response that [listen] decodes under the number of the
    request, which [initialize] then goes on with.  There is no timeout and
    no signal of a closed connection: when [listen] returns without such a
    response the receive never returns, and when [listen] ends the process
    the call ends with it. *)
Theorem await_ends_only_by_the_response p r :
  (forall k c, responseChans p !! k = Some c -> (c < chans p)%nat) ->
  exists evs e,
    rounds r = Some (evs, e)
    /\ initialize p r
       = Some (match firstAnswer (wrap64 (seqCounter p + 1)) evs with
               | Some resp => initializeReceived resp
               | None => match e with Return => Stuck | _ => Killed e end
               end).
Proof.
  intros Hreg. pose proof (initializeSend_waits p Hreg) as Hw.
  unfold initialize. destruct (initializeSend p) as [[req ch] p1].
  destruct Hw as [_ Hw].
  destruct (listen_rounds p1 r) as (evs & e & Hr & ->).
  exists evs, e. split; [done|].
  rewrite (rounds_recv evs p1 _ ch Hw).
  by destruct (firstAnswer _ evs).
Qed.

End Handshake.

Lemma await_ends_only_by_the_response_witness :
  exists evs e,
    rounds (U := json.UnmarshalResponse) (closing (frame unsolicited)) = Some (evs, e)
    /\ initialize (M := json.MarshalRequest) (U := json.UnmarshalResponse)
         (UC := json.UnmarshalCapabilities) start (closing (frame unsolicited))
       = Some (match firstAnswer 1 evs with
               | Some resp =>
                   initializeReceived (UC := json.UnmarshalCapabilities) resp
               | None => match e with Return => Stuck | _ => Killed e end
               end).
Proof.
  apply (await_ends_only_by_the_response (M := json.MarshalRequest)
           (U := json.UnmarshalResponse) (UC := json.UnmarshalCapabilities)
           start (closing (frame unsolicited))).
  intros k c Hk. simpl in Hk. by rewrite lookup_empty in Hk.
Defined.

(** C3, the claim as written fails: once [listen] has returned at the end
    of the stream, the receive of [initialize] waits for good; there is
    neither a timeout nor an error of a closed connection to end it.  The
    same holds when the only response is for another request. *)
Lemma await_hangs_after_the_reader_returned :
  rounds (U := json.UnmarshalResponse) (closing []) = Some ([], Return)
  /\ initialize (M := json.MarshalRequest) (U := json.UnmarshalResponse)
       (UC := json.UnmarshalCapabilities) start (closing [])
     = Some Stuck
  /\ initialize (M := json.MarshalRequest) (U := json.UnmarshalResponse)
       (UC := json.UnmarshalCapabilities) start (closing (frame unsolicited))
     = Some Stuck.
Proof. split_and!; vm_compute; reflexivity. Qed.

(** C9.  The handshake scenario: the first request is [initialize] with
    sequence number 1, the peer answers it with the capability
    [supportsConfigurationDoneRequest] set, and [initialize] returns
    capabilities with [SupportsConfigurationDoneRequest] true: the key of
    the body matches the name of the field without regard to case. *)
Theorem handshake_scenario :
  let '(req, ch, p) := initializeSend (M := json.MarshalRequest) start in
  Seq (reqMessage req) = 1
  /\ reqCommand req = "initialize"
  /\ wire p = frame (js "{'seq':1,'type':'request','command':'initialize','arguments':{'adapterID':'dap-cli'}}")
  /\ json.UnmarshalResponse reply = inr decodedReply
  /\ exists caps,
       initialize (M := json.MarshalRequest) (U := json.UnmarshalResponse)
         (UC := json.UnmarshalCapabilities) start (closing (frame reply))
       = Some (Capable caps)
       /\ SupportsConfigurationDoneRequest caps = true.
Proof.
  vm_compute. split_and!; [reflexivity..|]. eexists. split; reflexivity.
Qed.

(** ** Decimal numbers *)

Lemma code_byte z : 0 <= z < 256 -> code (byte z) = z.
Proof.
  intros Hz. unfold code, byte. rewrite N_ascii_embedding; lia.
Qed.

Lemma code_range a : 0 <= code a < 256.
Proof. unfold code. pose proof (N_ascii_bounded a). lia. Qed.

Lemma isDigit_byte d : 0 <= d < 10 -> isDigit (byte (48 + d)) = true.
Proof.
  intros Hd. unfold isDigit. rewrite code_byte by lia.
  destruct (Z.leb_spec 48 (48 + d)); [|lia]. by destruct (Z.leb_spec (48 + d) 57); [|lia].
Qed.

Lemma parseDigits_digit a d rest :
  0 <= d < 10 -> 0 <= a -> a * 10 + d < 2 ^ 64 ->
  parseDigits a (byte (48 + d) :: rest) = parseDigits (a * 10 + d) rest.
Proof.
  intros Hd Ha Hr. simpl. rewrite isDigit_byte, code_byte by lia.
  replace (48 + d - 48) with d by lia.
  by destruct (Z.leb_spec (2 ^ 64) (a * 10 + d)); [lia|].
Qed.

Lemma digitsOf_spec fuel n tail :
  0 <= n < 2 ^ Z.of_nat fuel -> (0 < fuel)%nat ->
  exists ds,
    digitsOf fuel n tail = ds ++ tail
    /\ ds <> []
    /\ Forall (fun a => isDigit a = true) ds
    /\ forall a rest,
         0 <= a -> a * 10 ^ Z.of_nat (length ds) + n < 2 ^ 64 ->
         parseDigits a (ds ++ rest) = parseDigits (a * 10 ^ Z.of_nat (length ds) + n) rest.
Proof.
  revert n tail. induction fuel as [|fuel IH]; intros n tail Hn Hf; [lia|].
  cbn [digitsOf]. cbv zeta. destruct (Z.ltb_spec n 10) as [Hlt|Hge].
  - exists [byte (48 + n mod 10)]. split_and!; [done|done| |].
    + constructor; [|constructor]. apply isDigit_byte. apply Z.mod_pos_bound. lia.
    + intros a rest Ha Hr. simpl length in *. change (10 ^ Z.of_nat 1) with 10 in *.
      rewrite Z.mod_small by lia. simpl app. apply parseDigits_digit; lia.
  - assert (0 < fuel)%nat as Hf'.
    { destruct fuel; [|lia]. change (2 ^ Z.of_nat 1) with 2 in Hn. lia. }
    assert (0 <= n / 10 < 2 ^ Z.of_nat fuel) as Hn'.
    { split; [apply Z.div_pos; lia|].
      rewrite Nat2Z.inj_succ, Z.pow_succ_r in Hn by lia.
      apply Z.div_lt_upper_bound; lia. }
    destruct (IH (n / 10) (byte (48 + n mod 10) :: tail) Hn' Hf')
      as (ds & -> & Hne & Hd & Hp).
    exists (ds ++ [byte (48 + n mod 10)]). split_and!.
    + by rewrite <- app_assoc.
    + by destruct ds.
    + apply Forall_app. split; [done|]. constructor; [|constructor].
      apply isDigit_byte. apply Z.mod_pos_bound. lia.
    + intros a rest Ha Hr. rewrite length_app in *. simpl length in *.
      rewrite Nat2Z.inj_add, Z.pow_add_r in * by lia.
      change (10 ^ Z.of_nat 1) with 10 in *.
      pose proof (Z.div_mod n 10 ltac:(lia)) as Hdm.
      pose proof (Z.mod_pos_bound n 10 ltac:(lia)) as Hm.
      assert (0 < 10 ^ Z.of_nat (length ds)) as Hpow by (apply Z.pow_pos_nonneg; lia).
      rewrite <- app_assoc. simpl app. rewrite Hp by nia.
      rewrite parseDigits_digit by nia. f_equal. nia.
Qed.

Lemma fmt_d_spec n :
  0 <= n < 2 ^ 63 ->
  fmt_d n <> []
  /\ Forall (fun a => isDigit a = true) (fmt_d n)
  /\ strconv_Atoi (str (fmt_d n)) = inr n.
Proof.
  intros Hn. unfold fmt_d.
  destruct (digitsOf_spec (S (Z.to_nat (Z.log2 n))) n []) as (ds & -> & Hne & Hd & Hp).
  { split; [lia|]. rewrite Nat2Z.inj_succ, Z2Nat.id by apply Z.log2_nonneg.
    destruct (decide (n = 0)) as [->|]; [done|]. apply Z.log2_spec. lia. }
  { lia. }
  rewrite app_nil_r. split_and!; [done..|].
  unfold strconv_Atoi. rewrite bytes_str.
  destruct ds as [|a ds]; [done|].
  assert (isDigit a = true) as Ha by by inversion Hd.
  destruct (Ascii.eqb_spec a "+") as [->|_]; [done|].
  destruct (Ascii.eqb_spec a "-") as [->|_]; [done|].
  unfold parseSigned. specialize (Hp 0 []). rewrite app_nil_r in Hp.
  rewrite Hp by lia. cbn [parseDigits].
  replace (0 * 10 ^ Z.of_nat (length (a :: ds)) + n) with n by lia.
  by destruct (Z.leb_spec (2 ^ 63) n); [lia|].
Qed.

(** ** The frame that [sendMessage] writes *)

Lemma TrimLeft_plain a l : plain a -> TrimLeft (a :: l) = a :: l.
Proof.
  intros [Ha Hs]. simpl. rewrite Hs.
  destruct l as [|b [|c l]]; [done| |].
  - by rewrite isSpace2_low.
  - by rewrite isSpace2_low, isSpace3_low.
Qed.

Lemma TrimLeft_space a l : isSpace1 (code a) = true -> TrimLeft (a :: l) = TrimLeft l.
Proof. intros Hs. simpl. by rewrite Hs. Qed.

Lemma TrimRightRev_plain c l : plain c -> TrimRightRev (c :: l) = c :: l.
Proof.
  intros [Hc Hs]. simpl. rewrite Hs.
  destruct l as [|b [|a l]]; [done| |].
  - by rewrite isSpace2_low_last.
  - by rewrite isSpace2_low_last, isSpace3_low_last.
Qed.

Lemma TrimRightRev_space c l :
  isSpace1 (code c) = true -> TrimRightRev (c :: l) = TrimRightRev l.
Proof. intros Hs. simpl. by rewrite Hs. Qed.

Lemma digit_plain a : isDigit a = true -> plain a.
Proof.
  unfold isDigit, plain, isSpace1. intros [H1 H2]%andb_true_iff.
  apply Z.leb_le in H1, H2. split; [lia|].
  destruct (Z.leb_spec (code a) 13); [lia|]. destruct (Z.eqb_spec (code a) 32); [lia|].
  by rewrite andb_false_r.
Qed.

Lemma digit_not_colon ds : Forall (fun a => isDigit a = true) ds -> colon ∉ ds.
Proof.
  intros Hd Hin. rewrite Forall_forall in Hd. by apply Hd in Hin.
Qed.

Lemma digit_not_LF ds : Forall (fun a => isDigit a = true) ds -> LF ∉ ds.
Proof.
  intros Hd Hin. rewrite Forall_forall in Hd. by apply Hd in Hin.
Qed.

(** Trimming white space around text that begins and ends with a plain
    byte leaves the text. *)
Lemma TrimRight_plain_end l c ws :
  plain c -> Forall (fun a => isSpace1 (code a) = true) ws ->
  TrimRight (l ++ c :: ws) = l ++ [c].
Proof.
  intros Hc Hws. unfold TrimRight. f_equal. rewrite rev_app_distr. simpl rev.
  rewrite <- rev_involutive at 1. rewrite <- (rev_involutive (l ++ [c])). f_equal.
  rewrite rev_involutive, rev_app_distr. simpl.
  apply Forall_rev in Hws. rewrite <- app_assoc. simpl.
  induction Hws as [|a ws' Ha _ IH]; simpl app.
  - by apply TrimRightRev_plain.
  - by rewrite TrimRightRev_space.
Qed.

Lemma digits_end ds :
  ds <> [] -> Forall (fun a => isDigit a = true) ds ->
  exists l c, ds = l ++ [c] /\ plain c.
Proof.
  intros Hne Hd. destruct ds as [|a ds] using rev_ind; [done|].
  exists ds, a. split; [done|]. apply Forall_app in Hd as [_ Hd].
  apply digit_plain. by inversion Hd.
Qed.

Lemma bytes_TrimSpace_digits ds :
  ds <> [] -> Forall (fun a => isDigit a = true) ds ->
  bytes_TrimSpace (" "%char :: ds) = ds.
Proof.
  intros Hne Hd. unfold bytes_TrimSpace. rewrite TrimLeft_space by done.
  destruct (digits_end ds Hne Hd) as (l & c & Hds & Hc).
  destruct ds as [|a ds]; [done|].
  rewrite TrimLeft_plain by (apply digit_plain; by inversion Hd).
  rewrite Hds. by apply (TrimRight_plain_end l c []).
Qed.

Lemma lineText_length_header ds :
  ds <> [] -> Forall (fun a => isDigit a = true) ds ->
  lineText (bytes "Content-Length: " ++ ds ++ [CR])
    = str (bytes "Content-Length" ++ colon :: " "%char :: ds).
Proof.
  intros Hne Hd. unfold lineText, bytes_TrimSpace. f_equal.
  destruct (digits_end ds Hne Hd) as (l & c & -> & Hc).
  change (bytes "Content-Length: " ++ (l ++ [c]) ++ [CR])
    with ("C"%char :: (bytes "ontent-Length: " ++ (l ++ [c]) ++ [CR])).
  rewrite <- app_comm_cons, TrimLeft_plain by (split; [vm_compute|]; reflexivity).
  change ("C"%char :: (bytes "ontent-Length: " ++ (l ++ [c]) ++ [CR]) ++ [LF])
    with (bytes "Content-Length: " ++ ((l ++ [c]) ++ [CR]) ++ [LF]).
  rewrite <- !app_assoc. simpl ([c] ++ _).
  rewrite (app_assoc _ l). rewrite TrimRight_plain_end; [|done|].
  - by rewrite <- !app_assoc.
  - by repeat constructor.
Qed.

Lemma frame_header_line ds :
  ds <> [] -> Forall (fun a => isDigit a = true) ds ->
  isHeaderLine (bytes "Content-Length: " ++ ds ++ [CR])
  /\ headerFields (lineText (bytes "Content-Length: " ++ ds ++ [CR]))
     = inr ("Content-Length", str ds).
Proof.
  intros Hne Hd. rewrite lineText_length_header by done. split_and!.
  - split.
    + rewrite !not_elem_of_app. split_and!; [compute_done|by apply digit_not_LF|].
      by intros [=]%list_elem_of_singleton.
    + rewrite lineText_length_header by done. by destruct ds.
  - rewrite headerFields_colon.
    + by rewrite bytes_TrimSpace_digits.
    + compute_done.
    + apply not_elem_of_cons. split; [done|]. by apply digit_not_colon.
Qed.

Lemma blank_CR : isBlankLine [CR].
Proof. split; [compute_done|reflexivity]. Qed.

Lemma frame_lines body :
  frame body = wireLines [bytes "Content-Length: " ++ fmt_d (len body) ++ [CR]]
               ++ [CR] ++ LF :: body.
Proof.
  unfold frame, wireLines. cbn [map concat]. rewrite app_nil_r, <- !app_assoc.
  do 2 f_equal.
Qed.

Section RoundTrip.
Context {U : Unmarshal Response}.

(** The decoder on a frame: the header gives the length, exactly that many
    bytes are the body. *)
Lemma readFrame_frame body rest fin :
  len body <= maxAlloc ->
  readFrame {| pending := frame body ++ rest; final := fin |}
    = Some (match json_Unmarshal body with
            | inl _ => Stopped (Fatal FatalUnmarshal)
            | inr resp => Decoded resp {| pending := rest; final := fin |}
            end).
Proof.
  intros Hm. assert (0 <= len body < 2 ^ 63) as Hn.
  { unfold len, maxAlloc in *. split; [lia|].
    apply Z.le_lt_trans with (2 ^ 48); [done|]. done. }
  destruct (fmt_d_spec _ Hn) as (Hne & Hd & Ha).
  destruct (frame_header_line _ Hne Hd) as [Hh Hf].
  replace (frame body ++ rest)
    with (wireLines [bytes "Content-Length: " ++ fmt_d (len body) ++ [CR]]
          ++ [CR] ++ LF :: (body ++ rest))
    by (by rewrite frame_lines, <- !app_assoc).
  rewrite (readFrame_block _ [("Content-Length", str (fmt_d (len body)))] [CR]).
  - simpl default. change (lastValue _ _) with (Some (str (fmt_d (len body)))). simpl.
    apply f_equal. apply (readBody_exact _ (len body)); [done|unfold len in *; lia|done].
  - constructor; [done|constructor].
  - apply blank_CR.
Qed.

End RoundTrip.

Section Codec.
Context {MR : Marshal Response} {U : Unmarshal Response}.

Lemma sendMessage_wire m body p :
  json_Marshal m = inr body -> wire (sendMessage m p) = wire p ++ frame body.
Proof.
  intros Hm. unfold sendMessage, frame, write. rewrite Hm. cbn [wire].
  by rewrite <- !app_assoc.
Qed.

(** C1, as the code has it.  A message whose JSON text decodes back to it
    comes back from the decoder as it went into the encoder: [sendMessage]
    writes the header with the exact length of the text, a blank line and
    the text, and the frame loop of [listen] reads the header, takes exactly
    that many bytes and decodes them, leaving what follows the frame on the
    stream.  The condition on the text is needed: not every response has
    such a text. *)
Theorem frame_round_trip m body p rest fin :
  json_Marshal m = inr body ->
  json_Unmarshal body = inr m ->
  len body <= maxAlloc ->
  wire (sendMessage m p) = wire p ++ frame body
  /\ readFrame {| pending := frame body ++ rest; final := fin |}
     = Some (Decoded m {| pending := rest; final := fin |}).
Proof.
  intros Hm Hu Hl. split; [by apply sendMessage_wire|].
  by rewrite readFrame_frame, Hu.
Qed.

End Codec.

Lemma frame_round_trip_witness :
  wire (sendMessage (M := json.MarshalResponse) decodedReply start)
    = frame encodedReply
  /\ readFrame (U := json.UnmarshalResponse) (closing (frame encodedReply ++ frame unsolicited))
     = Some (Decoded decodedReply (closing (frame unsolicited))).
Proof.
  apply (frame_round_trip (MR := json.MarshalResponse) (U := json.UnmarshalResponse)
           decodedReply encodedReply start (frame unsolicited) EOF).
  - vm_compute. reflexivity.
  - vm_compute. reflexivity.
  - vm_compute. discriminate.
Defined.

(** C1, the claim as written fails: the response that [unsolicited] decodes
    to has no body.  [sendMessage] writes its nil [Body] as [null], and the
    frame loop reads the frame back as a response whose [Body] holds the
    four bytes of [null]: a different message. *)
Lemma response_without_body_does_not_round_trip :
  json_Unmarshal (Unmarshal := json.UnmarshalResponse) unsolicited = inr decodedUnsolicited
  /\ wire (sendMessage (M := json.MarshalResponse) decodedUnsolicited start)
     = frame encodedUnsolicited
  /\ readFrame (U := json.UnmarshalResponse) (closing (frame encodedUnsolicited))
     = Some (Decoded decodedNull (closing []))
  /\ decodedNull <> decodedUnsolicited.
Proof. split_and!; [vm_compute; reflexivity..|discriminate]. Qed.

(** A raw body is written compacted, so one with white space between its
    tokens does not come back as it was either. *)
Example spaced_body_does_not_round_trip :
  wire (sendMessage (M := json.MarshalResponse) spacedReply start) = frame encodedReply
  /\ readFrame (U := json.UnmarshalResponse) (closing (frame encodedReply))
     = Some (Decoded decodedReply (closing []))
  /\ decodedReply <> spacedReply.
Proof. split_and!; [vm_compute; reflexivity..|discriminate]. Qed.

(** * Further properties of the code *)

(** ** The sequence counter *)

Lemma wrap64_id z : - 2 ^ 63 <= z < 2 ^ 63 -> wrap64 z = z.
Proof. intros Hz. unfold wrap64. rewrite Z.mod_small; lia. Qed.

Lemma wrap64_range z : - 2 ^ 63 <= wrap64 z < 2 ^ 63.
Proof.
  unfold wrap64. pose proof (Z.mod_pos_bound (z + 2 ^ 63) (2 ^ 64) ltac:(lia)). lia.
Qed.

Lemma wrap64_top : wrap64 (2 ^ 63) = - 2 ^ 63.
Proof. reflexivity. Qed.

(** X1.  Requests made in a row are numbered consecutively from the counter:
    as long as the counter stays below the largest [int64], [k] calls of
    [NewRequest] return the numbers [c+1], ..., [c+k] in this order, each of
    type [request], and leave the counter at [c+k]; the rest of the process
    is untouched. *)
Theorem NewRequests_consecutive k p :
  - 2 ^ 63 <= seqCounter p ->
  seqCounter p + Z.of_nat k < 2 ^ 63 ->
  (NewRequests k p).1
    = map (fun i : nat => {| Seq := seqCounter p + 1 + Z.of_nat i; Type_ := "request" |})
        (seq 0 k)
  /\ seqCounter (NewRequests k p).2 = seqCounter p + Z.of_nat k
  /\ responseChans (NewRequests k p).2 = responseChans p
  /\ wire (NewRequests k p).2 = wire p
  /\ chanOps (NewRequests k p).2 = chanOps p.
Proof.
  revert p. induction k as [|k IH]; intros p Hlo Hhi.
  - simpl. split_and!; [done|lia|done..].
  - cbn [NewRequests]. unfold NewRequest.
    set (p1 := {| seqCounter := wrap64 (seqCounter p + 1) |}).
    assert (seqCounter p1 = seqCounter p + 1) as Hc.
    { unfold p1. simpl. apply wrap64_id. lia. }
    destruct (IH p1) as (H1 & H2 & H3 & H4 & H5); [lia..|].
    destruct (NewRequests k p1) as [ms p2]. simpl in *.
    split_and!; [|lia|done..].
    rewrite wrap64_id by lia. f_equal; [f_equal; lia|].
    rewrite H1, <- seq_shift, map_map. apply map_ext. intros i.
    f_equal. lia.
Qed.

Lemma NewRequests_consecutive_witness :
  (NewRequests 3 start).1
    = [ {| Seq := 1; Type_ := "request" |}; {| Seq := 2; Type_ := "request" |};
        {| Seq := 3; Type_ := "request" |} ]
  /\ seqCounter (NewRequests 3 start).2 = 3
  /\ responseChans (NewRequests 3 start).2 = ∅
  /\ wire (NewRequests 3 start).2 = []
  /\ chanOps (NewRequests 3 start).2 = [].
Proof.
  apply (NewRequests_consecutive 3 start); vm_compute; discriminate || reflexivity.
Defined.

(** X2.  The counter never leaves the range of [int64]: the number of a new
    request is the counter plus one, except at the largest [int64], where
    the atomic increment wraps to the smallest one. *)
Theorem NewRequest_wraps p :
  - 2 ^ 63 <= seqCounter p < 2 ^ 63 ->
  let '(m, p') := NewRequest p in
  seqCounter p' = Seq m
  /\ - 2 ^ 63 <= Seq m < 2 ^ 63
  /\ (if decide (seqCounter p = 2 ^ 63 - 1) then Seq m = - 2 ^ 63
      else Seq m = seqCounter p + 1).
Proof.
  intros Hp. simpl. split; [done|]. split; [apply wrap64_range|].
  case_decide as Hd.
  - rewrite Hd. reflexivity.
  - apply wrap64_id. lia.
Qed.

Lemma NewRequest_wraps_witness :
  let p := {| seqCounter := 2 ^ 63 - 1; responseChans := ∅; chans := 0%nat;
              wire := []; logged := []; chanOps := [] |} in
  let '(m, p') := NewRequest p in
  seqCounter p' = Seq m
  /\ - 2 ^ 63 <= Seq m < 2 ^ 63
  /\ Seq m = - 2 ^ 63.
Proof.
  apply (NewRequest_wraps
           {| seqCounter := 2 ^ 63 - 1; responseChans := ∅; chans := 0%nat;
              wire := []; logged := []; chanOps := [] |}).
  vm_compute. split; discriminate || reflexivity.
Defined.

(** ** Frames back to back *)

Section FramesInARow.
Context {U : Unmarshal Response}.

Lemma listen_frame p body resp rest fin :
  decodes body resp ->
  listen p {| pending := frame body ++ rest; final := fin |}
    = listen (dispatch resp p) {| pending := rest; final := fin |}.
Proof.
  intros [Hu Hl]. by rewrite listen_unfold, readFrame_frame, Hu.
Qed.

Lemma listen_frames p bodies resps rest fin :
  Forall2 decodes bodies resps ->
  listen p {| pending := frames bodies ++ rest; final := fin |}
    = listen (foldl (fun q resp => dispatch resp q) p resps)
        {| pending := rest; final := fin |}.
Proof.
  intros Hd. revert p. induction Hd as [|body resp bodies resps Hb _ IH]; intros p.
  - done.
  - unfold frames in *. cbn [map concat]. rewrite <- app_assoc.
    rewrite (listen_frame p body resp) by done. apply IH.
Qed.

Lemma listen_eof p tail : LF ∉ tail -> listen p (closing tail) = Some (Return, p).
Proof.
  intros Ht. rewrite listen_unfold. unfold readFrame.
  change tail with (wireLines [] ++ tail).
  by rewrite (readHeaderBlock_eof [] [] tail) by (done || constructor).
Qed.

(** X3.  Frames that arrive back to back are taken one by one, each at the
    byte where the one before ended, whatever their bodies contain: the
    decoded responses are dispatched in the order of arrival, and at the
    end of the stream [listen] returns. *)
Theorem listen_takes_frames_in_order p bodies resps tail :
  Forall2 decodes bodies resps -> LF ∉ tail ->
  listen p (closing (frames bodies ++ tail))
    = Some (Return, foldl (fun q resp => dispatch resp q) p resps).
Proof.
  intros Hd Ht. unfold closing. rewrite (listen_frames p bodies resps) by done.
  by apply listen_eof.
Qed.

(** X4.  A body that the JSON decoder rejects is fatal on the spot: the
    responses of the frames before it have been dispatched, and nothing
    that follows the bad frame is read. *)
Theorem listen_stops_at_a_bad_body p bodies resps bad e rest fin :
  Forall2 decodes bodies resps ->
  json_Unmarshal bad = inl e -> len bad <= maxAlloc ->
  listen p {| pending := frames bodies ++ frame bad ++ rest; final := fin |}
    = Some (Fatal FatalUnmarshal, foldl (fun q resp => dispatch resp q) p resps).
Proof.
  intros Hd He Hl. rewrite (listen_frames p bodies resps) by done.
  by rewrite listen_unfold, readFrame_frame, He.
Qed.

End FramesInARow.

Lemma listen_takes_frames_in_order_witness :
  listen (U := json.UnmarshalResponse) awaiting
    (closing (frames [unsolicited; reply; strayEvent] ++ bytes "Content-Le"))
  = Some (Return,
          foldl (fun q resp => dispatch resp q) awaiting
            [ {| respMessage := {| Seq := 7; Type_ := "response" |}; RequestSeq := 42;
                 Success := true; Command := "threads"; Message := ""; Body := None |};
              decodedReply; decodedEvent ]).
Proof.
  apply (listen_takes_frames_in_order (U := json.UnmarshalResponse) awaiting
           [unsolicited; reply; strayEvent]).
  - repeat (constructor; [split; [reflexivity|vm_compute; discriminate]|]).
    constructor.
  - compute_done.
Defined.

Lemma listen_stops_at_a_bad_body_witness :
  listen (U := json.UnmarshalResponse) awaiting
    {| pending := frames [reply] ++ frame (js "{'seq':'one'}") ++ frame unsolicited;
       final := ErrNet |}
  = Some (Fatal FatalUnmarshal,
          foldl (fun q resp => dispatch resp q) awaiting [decodedReply]).
Proof.
  apply (listen_stops_at_a_bad_body (U := json.UnmarshalResponse) awaiting
           [reply] [decodedReply] (js "{'seq':'one'}") UnmarshalTypeError
           (frame unsolicited) ErrNet).
  - constructor; [split; [reflexivity|vm_compute; discriminate]|constructor].
  - reflexivity.
  - vm_compute. discriminate.
Defined.

(** ** What [listen] does to the process *)

Section ListenEffects.
Context {U : Unmarshal Response}.

Lemma deliveryOps_app ds1 ds2 :
  deliveryOps (ds1 ++ ds2) = deliveryOps ds1 ++ deliveryOps ds2.
Proof. unfold deliveryOps. apply flat_map_app. Qed.

Lemma rounds_effects evs p :
  let p' := foldl round p evs in
  seqCounter p' = seqCounter p /\ wire p' = wire p /\ chans p' = chans p
  /\ responseChans p' ⊆ responseChans p
  /\ (exists n, logged p' = logged p ++ replicate n LogNoContentLength)
  /\ (exists ds, chanOps p' = chanOps p ++ deliveryOps ds).
Proof.
  revert p. induction evs as [|ev evs IH]; intros p; simpl.
  - split_and!; [done..| |].
    + exists 0%nat. by rewrite app_nil_r.
    + exists []. by rewrite app_nil_r.
  - destruct (IH (round p ev)) as (H1 & H2 & H3 & H4 & [n H5] & [ds H6]).
    rewrite H1, H2, H3, H5, H6. clear IH H1 H2 H3 H5 H6.
    destruct ev as [resp|]; simpl in *.
    + unfold dispatch in *.
      destruct (responseChans p !! RequestSeq resp) as [c|]; simpl in *.
      * split_and!; [done..| | |].
        -- etrans; [exact H4|]. apply delete_subseteq.
        -- by exists n.
        -- exists ((c, resp) :: ds). by rewrite <- app_assoc.
      * split_and!; [done..|by exists n|by exists ds].
    + split_and!; [done..| |by exists ds].
      exists (S n). by rewrite <- app_assoc.
Qed.

(** X5.  [listen] only consumes: on every stream it ends, and it has then
    left the sequence counter and the bytes written to the connection as
    they were and has made no channel; it has registered nothing (every
    entry of the registry was there before), has logged nothing but
    warnings of a missing length, and has done nothing to channels but
    send and close. *)
Theorem listen_only_consumes p r :
  exists e p',
    listen p r = Some (e, p')
    /\ seqCounter p' = seqCounter p /\ wire p' = wire p /\ chans p' = chans p
    /\ responseChans p' ⊆ responseChans p
    /\ (exists n, logged p' = logged p ++ replicate n LogNoContentLength)
    /\ (exists ds, chanOps p' = chanOps p ++ deliveryOps ds).
Proof.
  destruct (listen_rounds p r) as (evs & e & _ & ->).
  exists e, (foldl round p evs). split; [done|]. apply rounds_effects.
Qed.

Lemma distinctChans_delete p k ops :
  distinctChans p ->
  distinctChans
    {| seqCounter := seqCounter p; responseChans := delete k (responseChans p);
       chans := chans p; wire := wire p; logged := logged p; chanOps := ops |}.
Proof.
  intros Hd k1 k2 c. simpl. intros H1 H2.
  apply lookup_delete_Some in H1 as [_ H1]. apply lookup_delete_Some in H2 as [_ H2].
  by apply (Hd k1 k2 c).
Qed.

Lemma rounds_deliveries evs p :
  distinctChans p ->
  exists ds,
    chanOps (foldl round p evs) = chanOps p ++ deliveryOps ds
    /\ NoDup ds.*1
    /\ Forall (fun d => responseChans p !! RequestSeq d.2 = Some d.1) ds.
Proof.
  revert p. induction evs as [|ev evs IH]; intros p Hd; simpl.
  - exists []. rewrite app_nil_r. split_and!; [done|constructor|constructor].
  - destruct ev as [resp|]; simpl.
    + unfold dispatch.
      destruct (responseChans p !! RequestSeq resp) as [c|] eqn:Ec; [|by apply IH].
      destruct (IH _ (distinctChans_delete p (RequestSeq resp)
                        (chanOps p ++ [ChSend c resp; ChClose c]) Hd))
        as (ds & Hops & Hnd & Hall).
      simpl in *. exists ((c, resp) :: ds). split_and!.
      * by rewrite Hops, <- app_assoc.
      * simpl. constructor; [|done]. intros Hin.
        apply list_elem_of_fmap in Hin as ([c' resp'] & Hc & Hin). simpl in Hc. subst c'.
        rewrite Forall_forall in Hall. apply Hall in Hin. simpl in Hin.
        apply lookup_delete_Some in Hin as [Hne Hin].
        by apply Hne, (Hd _ _ c).
      * constructor; [done|]. eapply Forall_impl; [exact Hall|].
        intros d Hl. simpl in Hl. by apply lookup_delete_Some in Hl as [_ Hl].
    + destruct (IH (log LogNoContentLength p)) as (ds & Hops & Hnd & Hall); [done|].
      by exists ds.
Qed.

(** X6.  No channel is used twice.  When no channel is registered under
    two numbers, all that [listen] does to channels on any stream is a list
    of deliveries, each one send followed by the close of that channel, to
    channels that are all different, and each to the channel that was
    registered under the [request_seq] of the response it carries: a closed
    channel is never sent on or closed again. *)
Theorem listen_delivers_once_per_channel p r :
  distinctChans p ->
  exists e p' ds,
    listen p r = Some (e, p')
    /\ chanOps p' = chanOps p ++ deliveryOps ds
    /\ NoDup ds.*1
    /\ Forall (fun d => responseChans p !! RequestSeq d.2 = Some d.1) ds.
Proof.
  intros Hd. destruct (listen_rounds p r) as (evs & e & _ & ->).
  destruct (rounds_deliveries evs p Hd) as (ds & H1 & H2 & H3).
  by exists e, (foldl round p evs), ds.
Qed.

End ListenEffects.

Lemma listen_delivers_once_per_channel_witness :
  exists e p' ds,
    listen (U := json.UnmarshalResponse) awaiting
      (closing (frames [reply; strayEvent; reply]))
    = Some (e, p')
    /\ chanOps p' = chanOps awaiting ++ deliveryOps ds
    /\ NoDup ds.*1
    /\ Forall (fun d => responseChans awaiting !! RequestSeq d.2 = Some d.1) ds.
Proof.
  apply (listen_delivers_once_per_channel (U := json.UnmarshalResponse) awaiting).
  intros k1 k2 c H1 H2. unfold awaiting in *. simpl in *.
  apply lookup_insert_Some in H1 as [[<- _]|[_ H1]]; [|by rewrite lookup_empty in H1].
  apply lookup_insert_Some in H2 as [[<- _]|[_ H2]]; [done|by rewrite lookup_empty in H2].
Defined.

(** ** Correlation by [request_seq] *)

Section Correlation.
Context {U : Unmarshal Response}.

Lemma foldl_dispatch_round resps p :
  foldl (fun q resp => dispatch resp q) p resps = foldl round p (Some <$> resps).
Proof. revert p. induction resps as [|resp resps IH]; intros p; simpl; [done|apply IH]. Qed.

Lemma firstAnswer_responses seq resps :
  firstAnswer seq (Some <$> resps)
    = head (filter (fun resp => RequestSeq resp = seq) resps).
Proof.
  unfold firstAnswer. f_equal. f_equal.
  induction resps as [|resp resps IH]; simpl; [done|]. by f_equal.
Qed.

(** X7.  Responses are matched to waiters by number alone, not by order of
    arrival: whatever frames the peer sends and in whatever order, the
    waiter registered alone on its channel under [seq] receives the first
    response that carries [seq], and receives nothing when none does. *)
Theorem waiter_receives_its_first_answer p bodies resps tail seq ch :
  Forall2 decodes bodies resps -> LF ∉ tail ->
  waits p seq ch ->
  exists p',
    listen p (closing (frames bodies ++ tail)) = Some (Return, p')
    /\ recv ch (drop (length (chanOps p)) (chanOps p'))
       = head (filter (fun resp => RequestSeq resp = seq) resps).
Proof.
  intros Hd Ht Hw. eexists. split.
  - unfold closing. rewrite (listen_frames p bodies resps) by done.
    by apply listen_eof.
  - by rewrite foldl_dispatch_round, (rounds_recv _ p seq ch), firstAnswer_responses.
Qed.

Lemma foldl_dispatch_registry resps p k :
  responseChans (foldl (fun q resp => dispatch resp q) p resps) !! k
    = if decide (k ∈ RequestSeq <$> resps) then None else responseChans p !! k.
Proof.
  revert p. induction resps as [|resp resps IH]; intros p; cbn [foldl].
  - destruct (decide _) as [Hin|]; [|done]. by apply elem_of_nil in Hin.
  - rewrite IH. clear IH. rewrite fmap_cons.
    assert (responseChans (dispatch resp p) !! k
            = if decide (k = RequestSeq resp) then None else responseChans p !! k) as Hk.
    { unfold dispatch.
      destruct (responseChans p !! RequestSeq resp) as [c|] eqn:Ec; simpl.
      - case_decide as Hd; [subst; apply lookup_delete_eq|by rewrite lookup_delete_ne].
      - case_decide as Hd; [by subst|done]. }
    rewrite Hk. destruct (decide (k ∈ RequestSeq <$> resps)) as [Hin|Hnin].
    + by rewrite decide_True by (apply elem_of_cons; by right).
    + destruct (decide (k = RequestSeq resp)) as [->|Hne].
      * by rewrite decide_True by (apply elem_of_cons; by left).
      * by rewrite decide_False by (rewrite elem_of_cons; by intros [?|?]).
Qed.

(** X8.  After a run of frames the registry holds exactly the entries whose
    number no response carried: every number that was answered is gone,
    whether or not somebody waited under it, and every other entry is as
    it was. *)
Theorem answered_numbers_leave_the_registry p bodies resps tail :
  Forall2 decodes bodies resps -> LF ∉ tail ->
  exists p',
    listen p (closing (frames bodies ++ tail)) = Some (Return, p')
    /\ forall k,
         responseChans p' !! k
         = if decide (k ∈ RequestSeq <$> resps) then None else responseChans p !! k.
Proof.
  intros Hd Ht. eexists. split.
  - unfold closing. rewrite (listen_frames p bodies resps) by done.
    by apply listen_eof.
  - intros k. apply foldl_dispatch_registry.
Qed.

End Correlation.

Lemma waiter_receives_its_first_answer_witness :
  let p := {| seqCounter := 2; responseChans := <[1 := 0%nat]> (<[2 := 1%nat]> ∅);
              chans := 2%nat; wire := []; logged := []; chanOps := [] |} in
  let second := js "{'seq':5,'type':'response','request_seq':2,'success':true,'command':'b'}" in
  let first := js "{'seq':6,'type':'response','request_seq':1,'success':true,'command':'a'}" in
  exists p',
    listen (U := json.UnmarshalResponse) p (closing (frames [second; first; second] ++ []))
    = Some (Return, p')
    /\ recv 1%nat (drop (length (chanOps p)) (chanOps p'))
       = Some {| respMessage := {| Seq := 5; Type_ := "response" |}; RequestSeq := 2;
                 Success := true; Command := "b"; Message := ""; Body := None |}.
Proof.
  intros p second first.
  apply (waiter_receives_its_first_answer (U := json.UnmarshalResponse) p
           [second; first; second]
           [ {| respMessage := {| Seq := 5; Type_ := "response" |}; RequestSeq := 2;
                Success := true; Command := "b"; Message := ""; Body := None |};
             {| respMessage := {| Seq := 6; Type_ := "response" |}; RequestSeq := 1;
                Success := true; Command := "a"; Message := ""; Body := None |};
             {| respMessage := {| Seq := 5; Type_ := "response" |}; RequestSeq := 2;
                Success := true; Command := "b"; Message := ""; Body := None |} ]
           [] 2 1%nat).
  - repeat (constructor; [split; [reflexivity|vm_compute; discriminate]|]).
    constructor.
  - apply not_elem_of_nil.
  - split; [reflexivity|]. intros k Hk. unfold p in Hk. simpl in Hk.
    destruct (decide (k = 2)) as [|Hne]; [done|].
    destruct (decide (k = 1)) as [->|Hne1]; [discriminate Hk|].
    rewrite !lookup_insert_ne, lookup_empty in Hk by done. done.
Defined.

Lemma answered_numbers_leave_the_registry_witness :
  exists p',
    listen (U := json.UnmarshalResponse) awaiting
      (closing (frames [unsolicited; reply] ++ []))
    = Some (Return, p')
    /\ forall k,
         responseChans p' !! k
         = if decide (k ∈ [42; 1]) then None else responseChans awaiting !! k.
Proof.
  apply (answered_numbers_leave_the_registry (U := json.UnmarshalResponse) awaiting
           [unsolicited; reply]
           [ {| respMessage := {| Seq := 7; Type_ := "response" |}; RequestSeq := 42;
                Success := true; Command := "threads"; Message := ""; Body := None |};
             decodedReply ] []).
  - repeat (constructor; [split; [reflexivity|vm_compute; discriminate]|]).
    constructor.
  - apply not_elem_of_nil.
Defined.

(** ** Frames without a length, and failing transports *)

Lemma lastValue_missing k kvs : k ∉ kvs.*1 -> lastValue k kvs = None.
Proof.
  intros Hk. unfold lastValue.
  replace (filter (fun kv => kv.1 = k) kvs) with (@nil (string * string)); [done|].
  induction kvs as [|[k' v] kvs IH]; [done|].
  rewrite fmap_cons in Hk. apply not_elem_of_cons in Hk as [Hne Hk].
  rewrite filter_cons_False by (intros Heq; simpl in Heq; by subst). by apply IH.
Qed.

Section Skipping.
Context {U : Unmarshal Response}.

(** X9.  A header block in which no line is named exactly [Content-Length]
    (names are compared byte for byte, after trimming) makes [listen] log
    one warning and start over with a new header block at the byte after
    the blank line: no body is skipped, so what was meant as the body is
    read as header lines. *)
Theorem frame_without_length_is_skipped p lines kvs blank rest fin :
  Forall2 (fun l kv => isHeaderLine l /\ headerFields (lineText l) = inr kv) lines kvs ->
  isBlankLine blank ->
  "Content-Length" ∉ kvs.*1 ->
  listen p {| pending := wireLines lines ++ blank ++ LF :: rest; final := fin |}
    = listen (log LogNoContentLength p) {| pending := rest; final := fin |}.
Proof.
  intros Hl Hb Hk. rewrite listen_unfold.
  by rewrite (readFrame_block lines kvs), lastValue_missing by done.
Qed.

Lemma readHeaderBlock_error lines kvs tail fin :
  Forall2 (fun l kv => isHeaderLine l /\ headerFields (lineText l) = inr kv) lines kvs ->
  LF ∉ tail -> fin <> EOF ->
  readHeaderBlock {| pending := wireLines lines ++ tail; final := fin |}
    = Some (inl (Fatal (FatalReadLine fin))).
Proof.
  intros Hl Ht Hf. unfold readHeaderBlock.
  rewrite (readHeaders_lines _ _ lines kvs) by (done || (simpl; lia)).
  rewrite readHeaders_unfold by (simpl; lia).
  rewrite ReadBytes_end by done. simpl. by destruct fin.
Qed.

Lemma readBody_short_error value n got fin :
  strconv_Atoi value = inr n -> n <= maxAlloc -> len got < n -> fin <> EOF ->
  readBody value {| pending := got; final := fin |}
    = Stopped (Fatal (FatalReadBody fin)).
Proof.
  unfold len. intros Ha Hm Hg Hf. unfold readBody.
  rewrite (Atoi_nonempty _ _ Ha), Ha, makeslice_ok by lia.
  unfold ReadFull. simpl.
  destruct (Nat.eqb_spec (Z.to_nat n) 0); [lia|].
  destruct (Nat.leb_spec (Z.to_nat n) (length got)); [lia|].
  by destruct got, fin.
Qed.

(** X10.  A transport error is fatal wherever it strikes.  [lines] are the
    header lines read so far in the current block, none when the loop
    stands between two frames.  When the connection fails with an error
    other than the end of the stream while a header line is awaited,
    [listen] ends the process with [failed to read line].  When it fails
    before the promised body is complete, the promised length being within
    what [make] allocates, [listen] ends the process with [failed to read
    body], whether or not part of the body had arrived. *)
Theorem transport_error_is_fatal p lines kvs fin :
  Forall2 (fun l kv => isHeaderLine l /\ headerFields (lineText l) = inr kv) lines kvs ->
  fin <> EOF ->
  (forall tail, LF ∉ tail ->
     listen p {| pending := wireLines lines ++ tail; final := fin |}
     = Some (Fatal (FatalReadLine fin), p))
  /\ (forall blank value n got,
        isBlankLine blank ->
        lastValue "Content-Length" kvs = Some value ->
        strconv_Atoi value = inr n -> n <= maxAlloc -> len got < n ->
        listen p {| pending := wireLines lines ++ blank ++ LF :: got; final := fin |}
        = Some (Fatal (FatalReadBody fin), p)).
Proof.
  intros Hl Hf. split.
  - intros tail Ht. rewrite listen_unfold. unfold readFrame.
    by rewrite (readHeaderBlock_error lines kvs).
  - intros blank value n got Hb Hv Ha Hm Hg. rewrite listen_unfold.
    rewrite (readFrame_block lines kvs), Hv by done. simpl.
    by rewrite (readBody_short_error value n).
Qed.

End Skipping.

Lemma frame_without_length_is_skipped_witness :
  listen (U := json.UnmarshalResponse) awaiting
    (closing (wireLines [bytes "content-length: 4" ++ [CR]; bytes "Content-Type: json" ++ [CR]]
              ++ [CR] ++ LF :: bytes "null"))
  = listen (U := json.UnmarshalResponse) (log LogNoContentLength awaiting)
      (closing (bytes "null")).
Proof.
  apply (frame_without_length_is_skipped (U := json.UnmarshalResponse) awaiting
           [bytes "content-length: 4" ++ [CR]; bytes "Content-Type: json" ++ [CR]]
           [("content-length", "4"); ("Content-Type", "json")] [CR] (bytes "null") EOF).
  - repeat (constructor;
              [split; [split; [compute_done|vm_compute; discriminate]|reflexivity]|]).
    constructor.
  - split; [compute_done|reflexivity].
  - compute_done.
Defined.

Lemma transport_error_is_fatal_witness :
  listen (U := json.UnmarshalResponse) start {| pending := []; final := ErrNet |}
    = Some (Fatal (FatalReadLine ErrNet), start)
  /\ listen (U := json.UnmarshalResponse) start
       {| pending := wireLines [bytes "Content-Length: 5" ++ [CR]] ++ bytes "Foo: b";
          final := ErrNet |}
     = Some (Fatal (FatalReadLine ErrNet), start)
  /\ listen (U := json.UnmarshalResponse) start
       {| pending := wireLines [bytes "Content-Length: 5" ++ [CR]] ++ [CR] ++ LF :: [];
          final := ErrNet |}
     = Some (Fatal (FatalReadBody ErrNet), start)
  /\ listen (U := json.UnmarshalResponse) start
       {| pending := wireLines [bytes "Content-Length: 5" ++ [CR]] ++ [CR] ++ LF :: bytes "abc";
          final := ErrNet |}
     = Some (Fatal (FatalReadBody ErrNet), start).
Proof.
  destruct (transport_error_is_fatal (U := json.UnmarshalResponse) start [] [] ErrNet)
    as [Hempty _]; [constructor|discriminate|].
  destruct (transport_error_is_fatal (U := json.UnmarshalResponse) start
              [bytes "Content-Length: 5" ++ [CR]] [("Content-Length", "5")] ErrNet)
    as [Hline Hbody]; [|discriminate|].
  { constructor; [|constructor].
    split; [split; [compute_done|vm_compute; discriminate]|reflexivity]. }
  assert (isBlankLine [CR]) as Hb by (split; [compute_done|reflexivity]).
  split_and!.
  - apply (Hempty []). compute_done.
  - apply (Hline (bytes "Foo: b")). compute_done.
  - apply (Hbody [CR] "5" 5 [] Hb eq_refl eq_refl);
      [vm_compute; discriminate|reflexivity].
  - apply (Hbody [CR] "5" 5 (bytes "abc") Hb eq_refl eq_refl);
      [vm_compute; discriminate|reflexivity].
Defined.

(** ** Line endings *)

Lemma isSpace1_low a : isSpace1 a = true -> a < 128.
Proof.
  unfold isSpace1. intros [[_ H]%andb_true_iff|H]%orb_true_iff.
  - apply Z.leb_le in H. lia.
  - apply Z.eqb_eq in H. lia.
Qed.

Lemma TrimLeft_ws ws :
  Forall (fun a => isSpace1 (code a) = true) ws -> TrimLeft ws = [].
Proof. induction 1 as [|a ws Ha _ IH]; [done|]. by rewrite TrimLeft_space. Qed.

Lemma TrimLeft_app_ws l ws :
  Forall (fun a => isSpace1 (code a) = true) ws ->
  TrimLeft (l ++ ws) = match TrimLeft l with [] => [] | t => t ++ ws end.
Proof.
  intros Hws.
  induction l as [l IH] using (induction_ltof1 _ (@length ascii)). unfold ltof in IH.
  destruct l as [|a [|b [|c r]]].
  - simpl. by rewrite TrimLeft_ws.
  - destruct (isSpace1 (code a)) eqn:Ha.
    { rewrite <- app_comm_cons, !TrimLeft_space by done. simpl. by rewrite TrimLeft_ws. }
    simpl TrimLeft at 2. rewrite Ha.
    destruct Hws as [|w ws Hw Hws]; [simpl; by rewrite Ha|].
    apply isSpace1_low in Hw. simpl. rewrite Ha, isSpace2_low_last by done.
    destruct ws as [|w' ws]; [done|]. by rewrite isSpace3_low_mid.
  - destruct (isSpace1 (code a)) eqn:Ha.
    { rewrite <- app_comm_cons, !TrimLeft_space by done. apply IH. simpl. lia. }
    destruct (isSpace2 (code a) (code b)) eqn:Hab.
    { simpl. rewrite Ha, Hab. by rewrite TrimLeft_ws. }
    simpl TrimLeft at 2. rewrite Ha, Hab.
    destruct Hws as [|w ws Hw Hws]; [simpl; by rewrite Ha, Hab|].
    apply isSpace1_low in Hw. simpl. rewrite Ha, Hab. by rewrite isSpace3_low_last.
  - destruct (isSpace1 (code a)) eqn:Ha.
    { rewrite <- app_comm_cons, !TrimLeft_space by done. apply IH. simpl. lia. }
    destruct (isSpace2 (code a) (code b)) eqn:Hab.
    { simpl. rewrite Ha, Hab. apply (IH (c :: r)). simpl. lia. }
    destruct (isSpace3 (code a) (code b) (code c)) eqn:Habc.
    { simpl. rewrite Ha, Hab, Habc. apply (IH r). simpl. lia. }
    simpl. by rewrite Ha, Hab, Habc.
Qed.

Lemma TrimRight_app_ws x ws :
  Forall (fun a => isSpace1 (code a) = true) ws -> TrimRight (x ++ ws) = TrimRight x.
Proof.
  intros Hws. unfold TrimRight. f_equal. rewrite rev_app_distr.
  apply Forall_rev in Hws. induction Hws as [|a ws' Ha _ IH]; [done|].
  simpl app. by rewrite TrimRightRev_space.
Qed.

(** White space at the end of a text does not change what it trims to. *)
Lemma bytes_TrimSpace_app_ws l ws :
  Forall (fun a => isSpace1 (code a) = true) ws ->
  bytes_TrimSpace (l ++ ws) = bytes_TrimSpace l.
Proof.
  intros Hws. unfold bytes_TrimSpace. rewrite TrimLeft_app_ws by done.
  destruct (TrimLeft l) as [|a t]; [done|]. by apply TrimRight_app_ws.
Qed.

Lemma lineText_CR l : lineText (l ++ [CR]) = lineText l.
Proof.
  unfold lineText. rewrite <- app_assoc.
  rewrite (bytes_TrimSpace_app_ws l ([CR] ++ [LF])) by (by repeat constructor).
  by rewrite (bytes_TrimSpace_app_ws l [LF]) by (by repeat constructor).
Qed.

Lemma isHeaderLine_CR l : isHeaderLine l -> isHeaderLine (l ++ [CR]).
Proof.
  intros [Hlf Hne]. split.
  - rewrite not_elem_of_app. split; [done|]. by intros [=]%list_elem_of_singleton.
  - by rewrite lineText_CR.
Qed.

Lemma readHeaders_CR f1 f2 h lines rest fin :
  Forall isHeaderLine lines ->
  (length (wireLines ((fun l => l ++ [CR]) <$> lines) ++ [CR; LF] ++ rest) < f1)%nat ->
  (length (wireLines lines ++ [LF] ++ rest) < f2)%nat ->
  readHeaders f1 h
    {| pending := wireLines ((fun l => l ++ [CR]) <$> lines) ++ [CR; LF] ++ rest;
       final := fin |}
  = readHeaders f2 h {| pending := wireLines lines ++ [LF] ++ rest; final := fin |}.
Proof.
  intros Hl. revert f1 f2 h. induction Hl as [|l lines Hh _ IH]; intros f1 f2 h H1 H2.
  - change (wireLines ((fun l => l ++ [CR]) <$> []) ++ [CR; LF] ++ rest)
      with ([CR] ++ LF :: rest) in *.
    change (wireLines [] ++ [LF] ++ rest) with ([] ++ LF :: rest) in *.
    rewrite (readHeaders_blank_line f1 h [CR] rest fin) by (apply blank_CR || done).
    rewrite (readHeaders_blank_line f2 h [] rest fin); [done| |done].
    split; [apply not_elem_of_nil|reflexivity].
  - set (rest1 := wireLines ((fun l => l ++ [CR]) <$> lines) ++ [CR; LF] ++ rest) in *.
    set (rest2 := wireLines lines ++ [LF] ++ rest) in *.
    assert (wireLines ((fun l => l ++ [CR]) <$> (l :: lines)) ++ [CR; LF] ++ rest
            = (l ++ [CR]) ++ LF :: rest1) as E1.
    { unfold wireLines, rest1. rewrite fmap_cons. cbn [map concat].
      by rewrite <- !app_assoc. }
    assert (wireLines (l :: lines) ++ [LF] ++ rest = l ++ LF :: rest2) as E2.
    { unfold wireLines, rest2. cbn [map concat]. by rewrite <- !app_assoc. }
    rewrite E1 in *. rewrite E2 in *.
    rewrite (readHeaders_header_line f1 h (l ++ [CR])) by (done || by apply isHeaderLine_CR).
    rewrite (readHeaders_header_line f2 h l) by done.
    rewrite lineText_CR.
    destruct (headerFields (lineText l)) as [|[name value]]; [done|].
    apply IH; lia.
Qed.

Section LineEndings.
Context {U : Unmarshal Response}.

(** X11.  A line that ends in a line feed alone counts like one that ends
    in carriage return and line feed: a frame whose header lines and blank
    line lack the carriage return is read exactly like the frame that has
    them. *)
Theorem line_feed_alone_ends_a_line lines rest fin :
  Forall isHeaderLine lines ->
  readFrame {| pending := wireLines ((fun l => l ++ [CR]) <$> lines) ++ [CR; LF] ++ rest;
               final := fin |}
  = readFrame {| pending := wireLines lines ++ [LF] ++ rest; final := fin |}.
Proof.
  intros Hl. unfold readFrame, readHeaderBlock.
  by rewrite (readHeaders_CR _ (S (length (wireLines lines ++ [LF] ++ rest))) ∅ lines rest fin)
    by (done || (simpl; lia)).
Qed.

End LineEndings.

Lemma line_feed_alone_ends_a_line_witness :
  readFrame (U := json.UnmarshalResponse)
    (closing (wireLines ((fun l => l ++ [CR]) <$> [bytes "Content-Length: 4"])
              ++ [CR; LF] ++ bytes "null"))
  = readFrame (U := json.UnmarshalResponse)
      (closing (wireLines [bytes "Content-Length: 4"] ++ [LF] ++ bytes "null")).
Proof.
  apply (line_feed_alone_ends_a_line (U := json.UnmarshalResponse)
           [bytes "Content-Length: 4"] (bytes "null") EOF).
  constructor; [|constructor]. split; [compute_done|vm_compute; discriminate].
Defined.

(** ** The request of the handshake *)

Section Request.
Context {M : Marshal Request}.

(** X12.  [initialize] waits under the number it sends: the request gets
    the next number of the counter, a channel that did not exist before is
    registered under that very number, no other entry of the registry
    changes, and the connection receives the frame of the encoded request;
    when the request cannot be encoded nothing is written and the failure
    is logged, but the channel is registered all the same. *)
Theorem initialize_waits_under_the_number_it_sends p :
  let '(req, ch, p') := initializeSend p in
  Seq (reqMessage req) = wrap64 (seqCounter p + 1)
  /\ seqCounter p' = Seq (reqMessage req)
  /\ reqCommand req = "initialize"
  /\ ch = chans p /\ chans p' = S (chans p)
  /\ responseChans p' !! Seq (reqMessage req) = Some ch
  /\ (forall k, k <> Seq (reqMessage req) ->
        responseChans p' !! k = responseChans p !! k)
  /\ chanOps p' = chanOps p
  /\ match json_Marshal req with
     | inr body => wire p' = wire p ++ frame body /\ logged p' = logged p
     | inl e => wire p' = wire p /\ logged p' = logged p ++ [LogSendFailed e]
     end.
Proof.
  unfold initializeSend. cbn [InitializeRequest NewRequest register].
  rewrite sendMessage_responseChans. cbn [responseChans reqMessage Seq reqCommand].
  split_and!; [done| |done|done| | | | |].
  - unfold sendMessage. by destruct (json_Marshal _).
  - unfold sendMessage. by destruct (json_Marshal _).
  - apply lookup_insert_eq.
  - intros k Hk. by rewrite lookup_insert_ne.
  - unfold sendMessage. by destruct (json_Marshal _).
  - destruct (json_Marshal _) as [e|body] eqn:E.
    + unfold sendMessage. by rewrite E.
    + unfold sendMessage, frame, write. rewrite E. cbn [wire logged].
      by rewrite <- !app_assoc.
Qed.

End Request.

(** ** The input loop *)

Lemma Scan_line l rest fin :
  fitsScanner l ->
  exists tok,
    Scan {| pending := l ++ LF :: rest; final := fin |}
    = inl (tok, {| pending := rest; final := fin |}).
Proof.
  intros [Hlf Hlen]. unfold Scan. simpl. rewrite untilDelim_found by done.
  unfold len in *. rewrite length_app. simpl.
  destruct (Z.leb_spec (Z.of_nat (length l + 1)) MaxScanTokenSize); [|lia]. eauto.
Qed.

Lemma Scan_end fin :
  Scan {| pending := []; final := fin |}
  = inr (match fin with EOF => None | e => Some (ErrRead e) end).
Proof. by destruct fin. Qed.

Lemma Scan_last_line tail fin :
  fitsScanner tail -> tail <> [] ->
  exists tok,
    Scan {| pending := tail; final := fin |} = inl (tok, {| pending := []; final := fin |}).
Proof.
  intros [Hlf Hlen] Hne. unfold Scan. simpl. rewrite untilDelim_none by done.
  destruct (Z.leb_spec MaxScanTokenSize (len tail)); [lia|].
  destruct tail; [done|]. eauto.
Qed.

Lemma LF_beyond long rest pre rest' :
  LF ∉ long -> long ++ rest = pre ++ LF :: rest' -> (length long <= length pre)%nat.
Proof.
  intros Hlf Heq. destruct (Nat.le_gt_cases (length long) (length pre)) as [|Hlt]; [done|].
  exfalso. apply Hlf. apply list_elem_of_lookup. exists (length pre).
  rewrite <- (lookup_app_l long rest) by done. rewrite Heq.
  by rewrite list_lookup_middle.
Qed.

Lemma Scan_long long rest fin :
  LF ∉ long -> MaxScanTokenSize <= len long ->
  Scan {| pending := long ++ rest; final := fin |} = inr (Some ErrTooLong).
Proof.
  intros Hlf Hlen. unfold Scan. simpl.
  destruct (untilDelim LF (long ++ rest)) as [[line rest']|] eqn:E.
  - apply untilDelim_split in E as (pre & -> & Heq & _).
    apply LF_beyond in Heq; [|done]. unfold len in *. rewrite length_app. simpl.
    by destruct (Z.leb_spec (Z.of_nat (length pre + 1)) MaxScanTokenSize); [lia|].
  - unfold len in *. rewrite length_app.
    by destruct (Z.leb_spec MaxScanTokenSize (Z.of_nat (length long + length rest))); [|lia].
Qed.

Lemma prompts_S n : prompts (S n) = bytes "> " ++ prompts n.
Proof. reflexivity. Qed.

Lemma prompts_snoc n : prompts n ++ bytes "> " = prompts (S n).
Proof.
  induction n as [|n IH]; [done|]. rewrite prompts_S, <- app_assoc, IH. done.
Qed.

Lemma handleInputLoop_lines f lines rest fin out :
  Forall fitsScanner lines ->
  (length lines < f)%nat ->
  handleInputLoop f {| pending := wireLines lines ++ rest; final := fin |} out
    = handleInputLoop (f - length lines) {| pending := rest; final := fin |}
        (out ++ prompts (length lines)).
Proof.
  intros Hl. revert f out. induction Hl as [|l lines Hf _ IH]; intros f out Hlen.
  - simpl. by rewrite Nat.sub_0_r, app_nil_r.
  - destruct f as [|f]; [simpl in Hlen; lia|]. cbn [handleInputLoop].
    assert (wireLines (l :: lines) ++ rest = l ++ LF :: (wireLines lines ++ rest)) as ->.
    { unfold wireLines. cbn [map concat]. by rewrite <- !app_assoc. }
    destruct (Scan_line l (wireLines lines ++ rest) fin Hf) as [tok ->].
    rewrite IH by (simpl in Hlen; lia). simpl length.
    by rewrite <- app_assoc, <- prompts_S.
Qed.

(** X13.  The prompt is printed once before every line that is read and
    once more before the read that finds the input at its end: on an input
    of lines that fit the scanner, the last of which may lack its line
    feed, [handleInput] prints that many prompts and nothing else, and it
    logs an error only when the input ended in a read error. *)
Theorem handleInput_prompts_before_every_read lines tail fin :
  Forall fitsScanner lines -> fitsScanner tail ->
  handleInput {| pending := wireLines lines ++ tail; final := fin |}
    = Some (prompts (length lines + match tail with [] => 1 | _ :: _ => 2 end),
            match fin with EOF => None | e => Some (ErrRead e) end).
Proof.
  intros Hl Ht. unfold handleInput.
  assert (length lines <= length (wireLines lines))%nat as Hlen.
  { clear. unfold wireLines. induction lines as [|l lines IH]; simpl; [lia|].
    rewrite !length_app. simpl. lia. }
  rewrite handleInputLoop_lines by (done || simpl; rewrite length_app; lia).
  simpl pending. rewrite length_app.
  replace (S (S (length (wireLines lines) + length tail)) - length lines)%nat
    with (S (S (length (wireLines lines) + length tail - length lines))) by lia.
  destruct (decide (tail = [])) as [->|Hne].
  - cbn [handleInputLoop]. rewrite Scan_end. simpl app at 1.
    by rewrite prompts_snoc, Nat.add_1_r.
  - cbn [handleInputLoop]. destruct (Scan_last_line tail fin Ht Hne) as [tok ->].
    rewrite Scan_end. simpl app at 1.
    rewrite !prompts_snoc. destruct tail; [done|].
    by replace (length lines + 2)%nat with (S (S (length lines))) by lia.
Qed.

(** X14.  A line too long for the scanner ends the input loop: after lines
    that fit, a run of [MaxScanTokenSize] bytes or more without a line feed
    makes the scan fail with [ErrTooLong]; the prompt before that read is
    the last one printed, the error is logged, and what follows the long
    line is never read. *)
Theorem handleInput_stops_at_a_long_line lines long rest fin :
  Forall fitsScanner lines -> LF ∉ long -> MaxScanTokenSize <= len long ->
  handleInput {| pending := wireLines lines ++ long ++ rest; final := fin |}
    = Some (prompts (length lines + 1), Some ErrTooLong).
Proof.
  intros Hl Hlf Hlong. unfold handleInput.
  assert (length lines <= length (wireLines lines))%nat as Hlen.
  { clear. unfold wireLines. induction lines as [|l lines IH]; simpl; [lia|].
    rewrite !length_app. simpl. lia. }
  rewrite handleInputLoop_lines by (done || simpl; rewrite length_app; lia).
  simpl pending. rewrite length_app.
  replace (S (S (length (wireLines lines) + length (long ++ rest))) - length lines)%nat
    with (S (S (length (wireLines lines) + length (long ++ rest) - length lines))) by lia.
  cbn [handleInputLoop]. rewrite Scan_long by done. simpl app at 1.
  by rewrite prompts_snoc, Nat.add_1_r.
Qed.

Lemma handleInput_prompts_before_every_read_witness :
  handleInput (closing (wireLines [bytes "threads" ++ [CR]; []] ++ bytes "quit"))
    = Some (bytes "> > > > ", None).
Proof.
  apply (handleInput_prompts_before_every_read
           [bytes "threads" ++ [CR]; []] (bytes "quit") EOF).
  - repeat (constructor; [split; [compute_done|vm_compute; reflexivity]|]).
    constructor.
  - split; [compute_done|vm_compute; reflexivity].
Defined.

Lemma handleInput_stops_at_a_long_line_witness :
  handleInput
    (closing (wireLines [bytes "threads"]
              ++ replicate (Z.to_nat 65536) "a"%char ++ LF :: bytes "quit"))
    = Some (bytes "> > ", Some ErrTooLong).
Proof.
  apply (handleInput_stops_at_a_long_line [bytes "threads"]
           (replicate (Z.to_nat 65536) "a"%char) (LF :: bytes "quit") EOF).
  - constructor; [|constructor]. split; [compute_done|vm_compute; reflexivity].
  - intros [[=] _]%elem_of_replicate.
  - unfold len, MaxScanTokenSize. rewrite length_replicate. lia.
Defined.

(** ** Messages sent in a row *)

Section Sending.
Context {A : Type} {MA : Marshal A}.

Lemma sendMessage_frame (m : A) body p :
  json_Marshal m = inr body ->
  wire (sendMessage m p) = wire p ++ frame body
  /\ logged (sendMessage m p) = logged p
  /\ responseChans (sendMessage m p) = responseChans p
  /\ seqCounter (sendMessage m p) = seqCounter p.
Proof.
  intros Hm. unfold sendMessage, frame, write. rewrite Hm. cbn [wire logged].
  by rewrite <- !app_assoc.
Qed.

Lemma sendMessages_wire (ms : list A) bodies p :
  Forall2 (fun m body => json_Marshal m = inr body) ms bodies ->
  wire (foldl (fun q m => sendMessage m q) p ms) = wire p ++ frames bodies.
Proof.
  intros Hm. revert p. induction Hm as [|m body ms bodies Hb _ IH]; intros p.
  - simpl. by rewrite app_nil_r.
  - cbn [foldl]. rewrite IH. destruct (sendMessage_frame m body p Hb) as (-> & _).
    unfold frames. cbn [map concat]. by rewrite <- app_assoc.
Qed.

(** X15.  Messages sent one after the other reach the connection as their
    frames back to back, in the order of the calls, with nothing between
    them and nothing logged; sending touches neither the registry nor the
    sequence counter. *)
Theorem sendMessage_writes_frames_in_order (ms : list A) bodies p :
  Forall2 (fun m body => json_Marshal m = inr body) ms bodies ->
  let p' := foldl (fun q m => sendMessage m q) p ms in
  wire p' = wire p ++ frames bodies
  /\ logged p' = logged p
  /\ responseChans p' = responseChans p
  /\ seqCounter p' = seqCounter p.
Proof.
  intros Hm. cbv zeta. split; [by apply sendMessages_wire|].
  revert p. induction Hm as [|m body ms bodies Hb _ IH]; intros p; [done|].
  cbn [foldl]. destruct (IH (sendMessage m p)) as (H2 & H3 & H4).
  destruct (sendMessage_frame m body p Hb) as (_ & E2 & E3 & E4).
  by rewrite H2, H3, H4, E2, E3, E4.
Qed.

End Sending.

Section StreamRoundTrip.
Context {MR : Marshal Response} {U : Unmarshal Response}.

(** X16.  What [sendMessage] writes, [listen] reads back: a list of
    responses whose JSON texts decode back to them, sent one after the
    other over a connection that is then closed, is decoded by [listen] as
    the same responses in the same order, each dispatched in turn. *)
Theorem listen_reads_back_what_was_sent (ms : list Response) bodies p q :
  Forall2 (fun m body => json_Marshal m = inr body /\ decodes body m) ms bodies ->
  wire p = [] ->
  listen q (closing (wire (foldl (fun s m => sendMessage m s) p ms)))
    = Some (Return, foldl (fun s m => dispatch m s) q ms).
Proof.
  intros Hm Hw.
  rewrite (sendMessages_wire ms bodies), Hw.
  2:{ eapply Forall2_impl; [exact Hm|]. by intros m body [? _]. }
  rewrite app_nil_l, <- (app_nil_r (frames bodies)). unfold closing.
  rewrite (listen_frames q bodies ms).
  - apply (listen_eof _ []), not_elem_of_nil.
  - apply Forall2_flip. eapply Forall2_impl; [exact Hm|]. by intros m body [_ ?].
Qed.

(** X17.  Headers do not carry over from one frame to the next: after a
    frame with a length, a header block that names no [Content-Length] is
    skipped with a warning, whatever length the frame before it had. *)
Theorem headers_do_not_carry_over p body resp lines kvs blank rest fin :
  decodes body resp ->
  Forall2 (fun l kv => isHeaderLine l /\ headerFields (lineText l) = inr kv) lines kvs ->
  isBlankLine blank ->
  "Content-Length" ∉ kvs.*1 ->
  listen p {| pending := frame body ++ wireLines lines ++ blank ++ LF :: rest;
              final := fin |}
    = listen (log LogNoContentLength (dispatch resp p))
        {| pending := rest; final := fin |}.
Proof.
  intros Hd Hl Hb Hk. rewrite (listen_frame p body resp) by done.
  rewrite listen_unfold.
  by rewrite (readFrame_block lines kvs), lastValue_missing by done.
Qed.

End StreamRoundTrip.

Lemma sendMessage_writes_frames_in_order_witness :
  let r1 := {| reqMessage := {| Seq := 1; Type_ := "request" |}; reqCommand := "initialize";
               Arguments := Some {| ClientID := ""; ClientName := "dap";
                                    AdapterID := "go"; Locale := "" |} |} in
  let r2 := {| reqMessage := {| Seq := 2; Type_ := "request" |}; reqCommand := "threads";
               Arguments := None |} in
  let p' := foldl (fun q m => sendMessage (M := json.MarshalRequest) m q) start [r1; r2] in
  wire p'
    = wire start
      ++ frames [js "{'seq':1,'type':'request','command':'initialize','arguments':{'clientName':'dap','adapterID':'go'}}";
                 js "{'seq':2,'type':'request','command':'threads'}"]
  /\ logged p' = logged start
  /\ responseChans p' = responseChans start
  /\ seqCounter p' = seqCounter start.
Proof.
  intros r1 r2.
  apply (sendMessage_writes_frames_in_order (MA := json.MarshalRequest) [r1; r2]).
  repeat (constructor; [reflexivity|]). constructor.
Defined.

Lemma listen_reads_back_what_was_sent_witness :
  let other := {| respMessage := {| Seq := 7; Type_ := "response" |}; RequestSeq := 42;
                  Success := false; Command := "threads"; Message := "no <threads>";
                  Body := Some (bytes "null") |} in
  listen (U := json.UnmarshalResponse) awaiting
    (closing (wire (foldl (fun s m => sendMessage (M := json.MarshalResponse) m s) start
                      [other; decodedReply])))
  = Some (Return, foldl (fun s m => dispatch m s) awaiting [other; decodedReply]).
Proof.
  intros other.
  apply (listen_reads_back_what_was_sent (MR := json.MarshalResponse)
           (U := json.UnmarshalResponse) [other; decodedReply]
           [js "{'seq':7,'type':'response','request_seq':42,'success':false,'command':'threads','message':'no \u003cthreads\u003e','body':null}";
            encodedReply]).
  - repeat (constructor; [split; [reflexivity|split; [reflexivity|vm_compute; discriminate]]|]).
    constructor.
  - reflexivity.
Defined.

Lemma headers_do_not_carry_over_witness :
  listen (U := json.UnmarshalResponse) awaiting
    (closing (frame reply ++ wireLines [bytes "Foo: bar" ++ [CR]] ++ [CR] ++ LF :: frame unsolicited))
  = listen (U := json.UnmarshalResponse)
      (log LogNoContentLength (dispatch decodedReply awaiting))
      (closing (frame unsolicited)).
Proof.
  apply (headers_do_not_carry_over (U := json.UnmarshalResponse) awaiting reply decodedReply
           [bytes "Foo: bar" ++ [CR]] [("Foo", "bar")] [CR] (frame unsolicited) EOF).
  - split; [reflexivity|vm_compute; discriminate].
  - constructor; [|constructor].
    split; [split; [compute_done|vm_compute; discriminate]|reflexivity].
  - split; [compute_done|reflexivity].
  - compute_done.
Defined.
